(** * CenterFuze OpenText service: request orchestration core

    A shallow embedding of
      - [app/utils/rate_limiter.py]   (RateLimiter, AdaptiveRateLimiter),
      - [app/utils/cache_manager.py]  (CacheManager),
      - [app/services/opentext_service.py] (_make_request, get_account and the
        three batch fan-out methods),
    together with the properties of the design document that concern them.

    Modelling conventions.
      - Python [int] is [Z]; Python [float] (rates, clock readings, response
        times) is idealised as an exact rational [Q].  The counterexamples
        below use values on which binary64 arithmetic is exact.
      - [time.time()] and [datetime.now()] are an explicit argument [now]
        (seconds); [asyncio.sleep d] advances the clock by [d].
      - [asyncio.Lock] serialises the methods, so each method is one atomic
        state transformer; [asyncio.gather] runs its tasks one after the
        other, in argument order.
      - Exceptions are values of [exn]; a [while] loop takes fuel and
        reports [Diverged] when the fuel runs out. *)

From Stdlib Require Import Ascii QArith Qround Lqa.
From stdpp Require Import gmap strings list fin_maps.

#[local] Set Warnings "-register-all".
Local Open Scope Z_scope.

(** ** Python runtime fragments *)

Inductive exn : Type :=
  | ZeroDivisionError
  | ValueError
  | KeyError
  | TypeError
  | ReError
  | ClientError
  | OpenTextAPIError.

Inductive outcome (A : Type) : Type :=
  | Ok (a : A)
  | Raised (e : exn)
  | Diverged.
Arguments Ok {A} a.
Arguments Raised {A} e.
Arguments Diverged {A}.

(** JSON-like Python values: what the upstream returns and the cache stores. *)
Inductive pyval : Type :=
  | VNone
  | VBool (b : bool)
  | VInt (z : Z)
  | VStr (s : string)
  | VList (l : list pyval)
  | VDict (d : list (string * pyval)).

(** [bool(v)]. *)
Definition truthy (v : pyval) : bool :=
  match v with
  | VNone => false
  | VBool b => b
  | VInt z => negb (z =? 0)
  | VStr s => negb (String.eqb s "")
  | VList l => match l with [] => false | _ => true end
  | VDict d => match d with [] => false | _ => true end
  end.

(** [v is not None]. *)
Definition is_not_none (v : pyval) : bool :=
  match v with VNone => false | _ => true end.

(** [a < b] on floats. *)
Definition Qltb (a b : Q) : bool := negb (Qle_bool b a).

(** [int(x)] on a float: truncation towards zero. *)
Definition py_int (x : Q) : Z := Z.quot (Qnum x) (Zpos (Qden x)).

(** Two-argument [min] and [max]: the first argument wins ties. *)
Definition py_min (a b : Q) : Q := if Qltb b a then b else a.
Definition py_max (a b : Q) : Q := if Qltb a b then b else a.

(** ** app/utils/rate_limiter.py *)

Module RateLimiter.

Record t : Type := mk {
  requests_per_second : Q;
  max_tokens : Z;
  current_tokens : Z;
  last_refill : option Q
}.

(** [RateLimiter.__init__]: [burst_capacity or int(requests_per_second)],
    for a finite rate.  [int()] raises on an infinite or NaN rate; these
    are not values of [Q]. *)
Definition init (rps : Q) (burst_capacity : option Z) : t :=
  let cap := match burst_capacity with
             | Some b => if b =? 0 then py_int rps else b
             | None => py_int rps
             end in
  mk rps cap cap None.

(** [RateLimiter._refill_tokens], with [now = datetime.now()]. *)
Definition _refill_tokens (now : Q) (s : t) : t :=
  match last_refill s with
  | None => mk (requests_per_second s) (max_tokens s) (current_tokens s) (Some now)
  | Some last =>
      let elapsed := (now - last)%Q in
      let tokens_to_add := (elapsed * requests_per_second s)%Q in
      if Qle_bool 1 tokens_to_add then
        mk (requests_per_second s) (max_tokens s)
           (Z.min (max_tokens s) (current_tokens s + py_int tokens_to_add))
           (Some now)
      else s
  end.

Definition consume (tokens : Z) (s : t) : t :=
  mk (requests_per_second s) (max_tokens s) (current_tokens s - tokens) (last_refill s).

(** [asyncio.sleep d]: returns at once for a non-positive delay. *)
Definition sleep (d : Q) (clock : Q) : Q :=
  if Qltb 0 d then (clock + d)%Q else clock.

(** [RateLimiter.acquire]: one unit of fuel per evaluation of the loop
    test.  Returns the state and the clock at which the call returned.
    The wait is the exact quotient here.  Binary64 rounds it, and the
    refill after the rounded wait can fall a token short (29 tokens at
    100.0/s: [0.29 * 100.0] is 28.999999999999996), so that the code goes
    round the loop once more than this definition: the number of rounds
    is not to be read off it. *)
Fixpoint acquire (fuel : nat) (tokens : Z) (clock : Q) (s : t) : outcome (t * Q) :=
  match fuel with
  | O => Diverged
  | S fuel' =>
      if current_tokens s <? tokens then
        let tokens_needed := tokens - current_tokens s in
        if Qeq_bool (requests_per_second s) 0 then Raised ZeroDivisionError
        else
          let wait_time := (inject_Z tokens_needed / requests_per_second s)%Q in
          let clock' := sleep wait_time clock in
          acquire fuel' tokens clock' (_refill_tokens clock' s)
      else Ok (consume tokens s, clock)
  end.

(** [RateLimiter.try_acquire]. *)
Definition try_acquire (tokens : Z) (now : Q) (s : t) : bool * t :=
  let s1 := _refill_tokens now s in
  if tokens <=? current_tokens s1 then (true, consume tokens s1)
  else (false, s1).

(** [RateLimiter.reset]. *)
Definition reset (now : Q) (s : t) : t :=
  mk (requests_per_second s) (max_tokens s) (max_tokens s) (Some now).

(** The public operations that move tokens, each with the clock reading
    it is called at ([acquire] also with the fuel of its loop). *)
Inductive op : Type :=
  | Acquire (fuel : nat) (tokens : Z) (clock : Q)
  | TryAcquire (tokens : Z) (now : Q)
  | Reset (now : Q).

Definition requested (o : op) : Z :=
  match o with
  | Acquire _ n _ => n
  | TryAcquire n _ => n
  | Reset _ => 0
  end.

(** The state an operation leaves; [None] when [acquire] does not return. *)
Definition step (o : op) (s : t) : option t :=
  match o with
  | Acquire fuel n clock =>
      match acquire fuel n clock s with
      | Ok (s', _) => Some s'
      | _ => None
      end
  | TryAcquire n now => Some (try_acquire n now s).2
  | Reset now => Some (reset now s)
  end.

Fixpoint run (ops : list op) (s : t) : option t :=
  match ops with
  | [] => Some s
  | o :: ops' =>
      match step o s with
      | Some s1 => run ops' s1
      | None => None
      end
  end.

(** [0 <= tokens <= capacity]. *)
Definition bucket_inv (s : t) : Prop :=
  0 <= current_tokens s /\ current_tokens s <= max_tokens s.

(** [RateLimiter.get_available_tokens]. *)
Definition get_available_tokens (now : Q) (s : t) : Z * t :=
  let s1 := _refill_tokens now s in (current_tokens s1, s1).

(** [RateLimiter.get_wait_time].  The wait is the exact quotient; its
    binary64 value can be a token short of covering the request (see
    [acquire]). *)
Definition get_wait_time (tokens : Z) (now : Q) (s : t) : outcome Q * t :=
  let s1 := _refill_tokens now s in
  if tokens <=? current_tokens s1 then (Ok 0%Q, s1)
  else
    let tokens_needed := tokens - current_tokens s1 in
    if Qeq_bool (requests_per_second s1) 0 then (Raised ZeroDivisionError, s1)
    else (Ok (inject_Z tokens_needed / requests_per_second s1)%Q, s1).

(** The dictionary of [RateLimiter.get_stats]; [last_refill] is kept as
    the time itself rather than its [isoformat()] text. *)
Record stats : Type := mkStats {
  stats_requests_per_second : Q;
  stats_max_tokens : Z;
  stats_current_tokens : Z;
  stats_last_refill : option Q;
  utilization_percent : Q
}.

(** [RateLimiter.get_stats]: the last entry divides by [max_tokens]. *)
Definition get_stats (s : t) : outcome stats :=
  if max_tokens s =? 0 then Raised ZeroDivisionError
  else Ok (mkStats (requests_per_second s) (max_tokens s) (current_tokens s)
                   (last_refill s)
                   (inject_Z (max_tokens s - current_tokens s)
                    / inject_Z (max_tokens s) * 100)%Q).

(** The clock reading an operation is called at. *)
Definition op_time (o : op) : Q :=
  match o with
  | Acquire _ _ clock => clock
  | TryAcquire _ now => now
  | Reset now => now
  end.

(** A run of [try_acquire] calls, each with its token count and clock
    reading; the first component is the number of tokens handed out. *)
Fixpoint try_acquire_all (calls : list (Z * Q)) (s : t) : Z * t :=
  match calls with
  | [] => (0, s)
  | (n, now) :: rest =>
      let '(granted, s1) := try_acquire n now s in
      let '(total, s2) := try_acquire_all rest s1 in
      ((if granted then n else 0) + total, s2)
  end.

(** The clock readings of a run of calls never go back, starting from
    [start]. *)
Fixpoint clock_ordered (start : Q) (calls : list (Z * Q)) : Prop :=
  match calls with
  | [] => True
  | (_, now) :: rest => (start <= now)%Q /\ clock_ordered now rest
  end.

End RateLimiter.

(** ** AdaptiveRateLimiter *)

Module AdaptiveRateLimiter.

Record ResponseSample : Type := mkSample {
  timestamp : Q;
  status_code : Z;
  response_time : Q;
  is_error : bool
}.

Record t : Type := mk {
  base : RateLimiter.t;
  min_requests_per_second : Q;
  max_requests_per_second : Q;
  adaptation_factor : Q;
  _recent_responses : list ResponseSample
}.

Definition _max_response_history : nat := 100.

(** [AdaptiveRateLimiter.__init__]: [super().__init__(initial)] and the
    bounds stored as given. *)
Definition init (initial min_rps max_rps factor : Q) : t :=
  mk (RateLimiter.init initial None) min_rps max_rps factor [].

Definition rate (a : t) : Q := RateLimiter.requests_per_second (base a).

(** The branch of [_adjust_rate] that fires: the unclamped new rate, or
    [None] for the early [return]. *)
Definition proposed_rate (a : t) (status : Z) (rtime : Q) (is_err : bool) : option Q :=
  let r := rate a in
  let f := adaptation_factor a in
  if status =? 429 then Some (r * (1 - f * 2))%Q
  else if is_err then Some (r * (1 - f))%Q
  else if Qltb 5 rtime then Some (r * (1 - f * (1 # 2)))%Q
  else if (status =? 200) && Qltb rtime 1 then Some (r * (1 + f * (1 # 5)))%Q
  else None.

Definition with_base (a : t) (b : RateLimiter.t) : t :=
  mk b (min_requests_per_second a) (max_requests_per_second a)
     (adaptation_factor a) (_recent_responses a).

(** [AdaptiveRateLimiter._adjust_rate]. *)
Definition _adjust_rate (status : Z) (rtime : Q) (is_err : bool) (a : t) : t :=
  let old_rate := rate a in
  match proposed_rate a status rtime is_err with
  | None => a
  | Some new_rate0 =>
      let new_rate :=
        py_max (min_requests_per_second a)
               (py_min (max_requests_per_second a) new_rate0) in
      if negb (Qeq_bool new_rate old_rate) then
        with_base a
          (RateLimiter.mk new_rate (py_int new_rate)
             (RateLimiter.current_tokens (base a))
             (RateLimiter.last_refill (base a)))
      else a
  end.

(** [AdaptiveRateLimiter.record_response], with [ts = time.time()]. *)
Definition record_response (ts : Q) (status : Z) (rtime : Q) (is_err : bool)
    (a : t) : t :=
  let appended := _recent_responses a ++ [mkSample ts status rtime is_err] in
  let kept := if (_max_response_history <? length appended)%nat
              then tail appended else appended in
  _adjust_rate status rtime is_err
    (mk (base a) (min_requests_per_second a) (max_requests_per_second a)
        (adaptation_factor a) kept).

(** A run of [record_response] calls, one per sample. *)
Definition record_all (calls : list ResponseSample) (a : t) : t :=
  foldl (fun acc r =>
           record_response (timestamp r) (status_code r) (response_time r)
                           (is_error r) acc)
        a calls.

(** [min_rate <= refill rate <= max_rate]. *)
Definition in_bounds (a : t) : Prop :=
  (min_requests_per_second a <= rate a)%Q /\ (rate a <= max_requests_per_second a)%Q.

End AdaptiveRateLimiter.

(** ** app/utils/cache_manager.py *)

Module CacheManager.

Record CacheEntry : Type := mkEntry {
  value : pyval;
  expires_at : Q
}.

Abbreviation cache := (gmap string CacheEntry).

(** [list(self._cache.keys())]. *)
Definition keys (c : cache) : list string := (map_to_list c).*1.

(** [for key in ks: del self._cache[key]]. *)
Definition del_all (ks : list string) (c : cache) : cache :=
  foldl (fun acc k => delete k acc) c ks.

(** [CacheManager.get], with [now = time.time()]. *)
Definition get (key : string) (now : Q) (c : cache) : pyval * cache :=
  match c !! key with
  | None => (VNone, c)
  | Some entry =>
      if Qle_bool (expires_at entry) now then (VNone, delete key c)
      else (value entry, c)
  end.

(** [CacheManager.set]. *)
Definition set (key : string) (v : pyval) (ttl : Z) (now : Q) (c : cache) : cache :=
  <[key := mkEntry v (now + inject_Z ttl)]> c.

(** [CacheManager.delete]. *)
Definition delete_ (key : string) (c : cache) : bool * cache :=
  match c !! key with
  | Some _ => (true, delete key c)
  | None => (false, c)
  end.

(** [CacheManager.exists]. *)
Definition exists_ (key : string) (now : Q) (c : cache) : bool * cache :=
  let '(v, c') := get key now c in (is_not_none v, c').

(** [CacheManager.touch]. *)
Definition touch (key : string) (ttl : Z) (now : Q) (c : cache) : bool * cache :=
  match c !! key with
  | None => (false, c)
  | Some entry =>
      if Qle_bool (expires_at entry) now then (false, c)
      else (true, <[key := mkEntry (value entry) (now + inject_Z ttl)]> c)
  end.

(** [CacheManager._cleanup_expired]. *)
Definition _cleanup_expired (now : Q) (c : cache) : cache :=
  let expired_keys :=
    (filter (fun kv => Is_true (Qle_bool (expires_at kv.2) now)) (map_to_list c)).*1 in
  del_all expired_keys c.

(** One call on the cache, with the clock reading it is made at. *)
Inductive op : Type :=
  | OpGet (key : string) (now : Q)
  | OpSet (key : string) (v : pyval) (ttl : Z) (now : Q)
  | OpDelete (key : string)
  | OpClear (pattern : option string)
  | OpExists (key : string) (now : Q)
  | OpTouch (key : string) (ttl : Z) (now : Q)
  | OpGetKeys (pattern : option string)
  | OpCleanup (now : Q).

(** [set] and [touch] are the calls that write an expiry time for [key]. *)
Definition writes_expiry (key : string) (o : op) : bool :=
  match o with
  | OpSet k _ _ _ => String.eqb k key
  | OpTouch k _ _ => String.eqb k key
  | _ => false
  end.

Section Patterns.

(** [re.compile]: [None] when it raises [re.error], otherwise the
    truth value of [regex.match(key)] (a match anchored at the start of
    the key). *)
Variable re_compile : string -> option (string -> bool).

(** [CacheManager.clear]. *)
Definition clear (pattern : option string) (c : cache) : outcome nat * cache :=
  match pattern with
  | None => (Ok (size c), ∅)
  | Some p =>
      match re_compile p with
      | None => (Raised ReError, c)
      | Some regex_match =>
          let keys_to_delete := filter (fun k => Is_true (regex_match k)) (keys c) in
          (Ok (length keys_to_delete), del_all keys_to_delete c)
      end
  end.

(** [CacheManager.get_keys]. *)
Definition get_keys (pattern : option string) (c : cache) : outcome (list string) :=
  match pattern with
  | None => Ok (keys c)
  | Some p =>
      match re_compile p with
      | None => Raised ReError
      | Some regex_match => Ok (filter (fun k => Is_true (regex_match k)) (keys c))
      end
  end.

(** The cache a call leaves behind. *)
Definition apply_op (o : op) (c : cache) : cache :=
  match o with
  | OpGet k now => (get k now c).2
  | OpSet k v ttl now => set k v ttl now c
  | OpDelete k => (delete_ k c).2
  | OpClear p => (clear p c).2
  | OpExists k now => (exists_ k now c).2
  | OpTouch k ttl now => (touch k ttl now c).2
  | OpGetKeys _ => c
  | OpCleanup now => _cleanup_expired now c
  end.

Definition apply_ops (ops : list op) (c : cache) : cache :=
  foldl (fun acc o => apply_op o acc) c ops.

End Patterns.

(** The key a single-key call works on. *)
Definition op_key (o : op) : option string :=
  match o with
  | OpGet k _ | OpSet k _ _ _ | OpDelete k | OpExists k _ | OpTouch k _ _ => Some k
  | OpClear _ | OpGetKeys _ | OpCleanup _ => None
  end.

(** The dictionary of [CacheManager.get_stats]. *)
Record cache_stats : Type := mkCacheStats {
  total_entries : Z;
  active_entries : Z;
  expired_entries : Z;
  estimated_memory_bytes : Z;
  stats_cleanup_interval : Z
}.

Section Stats.

(** [len(json.dumps(value).encode('utf-8'))], or [None] where
    [json.dumps] raises [TypeError] or [ValueError]. *)
Variable json_size : pyval -> option Z.

(** [CacheManager.get_stats]; a key is counted by the bytes of its text,
    [cleanup_interval] is the attribute of that name. *)
Definition get_stats (cleanup_interval : Z) (now : Q) (c : cache) : cache_stats :=
  let total := Z.of_nat (size c) in
  let expired :=
    Z.of_nat (length (filter (fun kv => Is_true (Qle_bool (expires_at kv.2) now))
                             (map_to_list c))) in
  let active := total - expired in
  let memory_usage :=
    foldl (fun acc kv =>
             acc + Z.of_nat (String.length kv.1)
             + match json_size (value kv.2) with
               | Some n => n
               | None => 100
               end)
          0 (map_to_list c) in
  mkCacheStats total active expired memory_usage cleanup_interval.

End Stats.

End CacheManager.

(** ** A fragment of Python's [re]

    Enough of [re.compile] and [regex.match] to run the examples: literal
    characters, [.] and a postfix [*] on a single character.  The other
    metacharacters are rejected here, although [re] accepts their
    well-formed uses; a leading [*] ("nothing to repeat") and a doubled
    [*] ("multiple repeat") are errors in [re] as well. *)

Module Re.

Inductive atom : Type :=
  | AnyChar
  | Lit (c : ascii).

Inductive item : Type :=
  | One (a : atom)
  | Star (a : atom).

Definition is_meta (c : ascii) : bool :=
  existsb (Ascii.eqb c)
    ["\"; "^"; "$"; "."; "|"; "?"; "*"; "+"; "("; ")"; "["; "]"; "{"; "}"]%char.

Definition parse_atom (c : ascii) : option atom :=
  if Ascii.eqb c "."%char then Some AnyChar
  else if is_meta c then None
  else Some (Lit c).

Fixpoint parse (p : list ascii) : option (list item) :=
  match p with
  | [] => Some []
  | c :: rest =>
      match parse_atom c with
      | None => None
      | Some a =>
          match rest with
          | "*"%char :: rest' =>
              match parse rest' with
              | Some items => Some (Star a :: items)
              | None => None
              end
          | _ =>
              match parse rest with
              | Some items => Some (One a :: items)
              | None => None
              end
          end
      end
  end.

(** [.] matches any character except a newline. *)
Definition atom_matches (a : atom) (c : ascii) : bool :=
  match a with
  | AnyChar => negb (Ascii.eqb c "010"%char)
  | Lit c' => Ascii.eqb c c'
  end.

(** Does the pattern match a prefix of [s]? *)
Fixpoint match_prefix (items : list item) (s : list ascii) : bool :=
  match items with
  | [] => true
  | One a :: items' =>
      match s with
      | c :: s' => atom_matches a c && match_prefix items' s'
      | [] => false
      end
  | Star a :: items' =>
      (fix star (s : list ascii) : bool :=
         match_prefix items' s
         || match s with
            | c :: s' => atom_matches a c && star s'
            | [] => false
            end) s
  end.

Definition compile (pattern : string) : option (string -> bool) :=
  match parse (String.list_ascii_of_string pattern) with
  | Some items => Some (fun key => match_prefix items (String.list_ascii_of_string key))
  | None => None
  end.

End Re.

(** ** app/services/opentext_service.py *)

Module OpenTextService.

(** What one [self._session.request(...)] followed by [response.json()]
    produces. *)
Inductive http_result : Type :=
  | HttpResponse (status : Z) (body : pyval)
  | HttpClientError
  | HttpOtherError.

(** The mutable objects the service holds, the clock, and the log of the
    upstream calls made so far (method and URL). *)
Record World : Type := mkWorld {
  cache_manager : gmap string CacheManager.CacheEntry;
  rate_limiter : RateLimiter.t;
  clock : Q;
  http_log : list (string * string)
}.

(** Coroutines over the world; an exception keeps the effects made before
    it was raised. *)
Definition M (A : Type) : Type := World -> outcome A * World.

Definition ret {A} (a : A) : M A := fun w => (Ok a, w).
Definition raise {A} (e : exn) : M A := fun w => (Raised e, w).
Definition bind {A B} (m : M A) (k : A -> M B) : M B :=
  fun w => match m w with
           | (Ok a, w1) => k a w1
           | (Raised e, w1) => (Raised e, w1)
           | (Diverged, w1) => (Diverged, w1)
           end.
Definition lift {A} (o : outcome A) : M A := fun w => (o, w).

Notation "x <- m ;; k" := (bind m (fun x => k))
  (at level 100, m at next level, right associativity).
Notation "m ;;; k" := (bind m (fun _ => k))
  (at level 100, right associativity).

(** [try: m  except OpenTextAPIError: h]. *)
Definition except_api {A} (m : M A) (h : M A) : M A :=
  fun w => match m w with
           | (Raised OpenTextAPIError, w1) => h w1
           | r => r
           end.

(** [try: m  except Exception as e: raise OpenTextAPIError(...)]: both
    handlers of [_make_request] re-raise as [OpenTextAPIError]. *)
Definition wrap_api {A} (m : M A) : M A :=
  fun w => match m w with
           | (Raised _, w1) => (Raised OpenTextAPIError, w1)
           | r => r
           end.

Section Service.

Variable api_base_url : string.
Variable batch_size : Z.
(** The upstream: its answer to a request, given the calls already made. *)
Variable http : string -> string -> list (string * string) -> http_result.
(** Bound on the iterations of the limiter's wait loop. *)
Variable acquire_fuel : nat.

Definition cache_get (key : string) : M pyval :=
  fun w => let '(v, c) := CacheManager.get key (clock w) (cache_manager w) in
           (Ok v, mkWorld c (rate_limiter w) (clock w) (http_log w)).

Definition cache_set (key : string) (v : pyval) (ttl : Z) : M unit :=
  fun w => (Ok tt, mkWorld (CacheManager.set key v ttl (clock w) (cache_manager w))
                           (rate_limiter w) (clock w) (http_log w)).

(** [await self.rate_limiter.acquire()]. *)
Definition limiter_acquire : M unit :=
  fun w => match RateLimiter.acquire acquire_fuel 1 (clock w) (rate_limiter w) with
           | Ok (s, clk) => (Ok tt, mkWorld (cache_manager w) s clk (http_log w))
           | Raised e => (Raised e, w)
           | Diverged => (Diverged, w)
           end.

Definition session_request (method url : string) : M http_result :=
  fun w => (Ok (http method url (http_log w)),
            mkWorld (cache_manager w) (rate_limiter w) (clock w)
                    (http_log w ++ [(method, url)])).

(** [method == 'GET' and cache_key], and the key when it holds. *)
Definition cacheable (method : string) (cache_key : option string) : option string :=
  match cache_key with
  | Some k => if String.eqb method "GET" && negb (String.eqb k "") then Some k else None
  | None => None
  end.

(** [_make_request] from [# Apply rate limiting] on. *)
Definition request_upstream (method endpoint : string)
    (cache_key : option string) (cache_ttl : Z) : M pyval :=
  limiter_acquire ;;;
  wrap_api (
    r <- session_request method (api_base_url ++ endpoint) ;;
    match r with
    | HttpResponse status response_data =>
        if 400 <=? status then raise OpenTextAPIError
        else
          match cacheable method cache_key with
          | Some k => cache_set k response_data cache_ttl ;;; ret response_data
          | None => ret response_data
          end
    | HttpClientError => raise ClientError
    | HttpOtherError => raise TypeError
    end).

(** [OpenTextService._make_request].  Opening the HTTP session, which
    comes first, touches none of the state modelled here. *)
Definition _make_request (method endpoint : string)
    (cache_key : option string) (cache_ttl : Z) : M pyval :=
  match cacheable method cache_key with
  | Some k =>
      cached_result <- cache_get k ;;
      if truthy cached_result then ret cached_result
      else request_upstream method endpoint cache_key cache_ttl
  | None => request_upstream method endpoint cache_key cache_ttl
  end.

Section Records.

(** A record class ([OpenTextAccount], [FaxUsage], [NumberPorting])
    and its [from_dict], which raises on a malformed payload. *)
Variable A : Type.
Variable from_dict : pyval -> outcome A.

(** The body shared by [get_account], [get_fax_usage] and
    [get_porting_status]. *)
Definition get_record (endpoint cache_key : string) (cache_ttl : Z) : M (option A) :=
  except_api
    (response_data <- _make_request "GET" endpoint (Some cache_key) cache_ttl ;;
     a <- lift (from_dict response_data) ;;
     ret (Some a))
    (ret None).

(** An element of [batch_results]: a task's return value, or the
    exception it raised. *)
Inductive gathered : Type :=
  | Returned (r : option A)
  | Exc (e : exn).

(** [asyncio.gather] over [tasks] with [return_exceptions=True]. *)
Fixpoint gather (tasks : list (M (option A))) : M (list gathered) :=
  match tasks with
  | [] => ret []
  | task :: rest =>
      fun w => match task w with
               | (Ok r, w1) => (rs <- gather rest ;; ret (Returned r :: rs)) w1
               | (Raised e, w1) => (rs <- gather rest ;; ret (Exc e :: rs)) w1
               | (Diverged, w1) => (Diverged, w1)
               end
  end.

(** The results the batch loops keep: [isinstance(result, A)]. *)
Definition is_record (g : gathered) : option A :=
  match g with
  | Returned (Some a) => Some a
  | _ => None
  end.

Definition succeeded (g : gathered) : bool :=
  match is_record g with Some _ => true | None => false end.

(** [range(0, stop, step)]. *)
Definition py_range (stop : nat) (step : Z) : outcome (list nat) :=
  if step =? 0 then Raised ValueError
  else if step <? 0 then Ok []
  else let st := Z.to_nat step in
       Ok ((fun k => (k * st)%nat) <$> seq 0 ((stop + st - 1) / st)%nat).

Section Batch.

(** The per-item coroutine of a batch method. *)
Variable fetch_one : string -> M (option A).

Fixpoint batch_loop (starts : list nat) (ids : list string) (records : list A)
    : M (list A) :=
  match starts with
  | [] => ret records
  | i :: starts' =>
      let batch_ids := take (Z.to_nat batch_size) (drop i ids) in
      batch_results <- gather (fetch_one <$> batch_ids) ;;
      batch_loop starts' ids (records ++ omap is_record batch_results)
  end.

(** The loop shared by [get_accounts_batch], [sync_fax_usage] and
    [batch_porting_status]. *)
Definition fetch_batch (ids : list string) : M (list A) :=
  starts <- lift (py_range (length ids) batch_size) ;;
  batch_loop starts ids [].

(** [attempted ids w rs w']: starting in [w], the coroutine of every
    item of [ids] was run in turn and returned or raised; [rs] holds
    what each one produced, in the order of [ids], and [w'] is the
    world they leave. *)
Inductive attempted : list string -> World -> list gathered -> World -> Prop :=
  | attempted_nil w : attempted [] w [] w
  | attempted_returned x xs w r w1 rs w2 :
      fetch_one x w = (Ok r, w1) ->
      attempted xs w1 rs w2 ->
      attempted (x :: xs) w (Returned r :: rs) w2
  | attempted_raised x xs w e w1 rs w2 :
      fetch_one x w = (Raised e, w1) ->
      attempted xs w1 rs w2 ->
      attempted (x :: xs) w (Exc e :: rs) w2.

End Batch.

Definition get_account (account_id : string) : M (option A) :=
  get_record ("/accounts/" ++ account_id) ("account:" ++ account_id) 600.

Definition get_accounts_batch (account_ids : list string) : M (list A) :=
  fetch_batch get_account account_ids.

(** Dates enter through their [isoformat()] strings. *)
Definition get_fax_usage (account_id start_date end_date : string) : M (option A) :=
  get_record ("/accounts/" ++ account_id ++ "/fax/usage")
             ("fax_usage:" ++ account_id ++ ":" ++ start_date ++ ":" ++ end_date) 900.

Definition sync_fax_usage (account_ids : list string) (start_date end_date : string)
    : M (list A) :=
  fetch_batch (fun account_id => get_fax_usage account_id start_date end_date)
              account_ids.

Definition get_porting_status (phone_number : string) : M (option A) :=
  get_record ("/porting/" ++ phone_number) ("porting:" ++ phone_number) 300.

Definition batch_porting_status (phone_numbers : list string) : M (list A) :=
  fetch_batch get_porting_status phone_numbers.

End Records.

End Service.

End OpenTextService.

(** ** app/models/opentext.py: [OpenTextAccount.from_dict]

    The identifying fields and the status.  The two dates, parsed with
    [datetime.fromisoformat], and the free-form dictionaries are left out;
    the payloads of the examples do not carry them. *)

Module OpenTextAccount.

Inductive AccountStatus : Type := ACTIVE | INACTIVE | SUSPENDED | CANCELLED.

Record t : Type := mk {
  account_id : pyval;
  account_name : pyval;
  status : AccountStatus
}.

(** [d.get(k)] on a decoded JSON object. *)
Fixpoint dict_get (d : list (string * pyval)) (k : string) : option pyval :=
  match d with
  | [] => None
  | (k', v) :: d' => if String.eqb k' k then Some v else dict_get d' k
  end.

(** [AccountStatus(value)]. *)
Definition status_of_value (v : pyval) : outcome AccountStatus :=
  match v with
  | VStr s =>
      if String.eqb s "active" then Ok ACTIVE
      else if String.eqb s "inactive" then Ok INACTIVE
      else if String.eqb s "suspended" then Ok SUSPENDED
      else if String.eqb s "cancelled" then Ok CANCELLED
      else Raised ValueError
  | _ => Raised ValueError
  end.

Definition from_dict (data : pyval) : outcome t :=
  match data with
  | VDict d =>
      match dict_get d "account_id" with
      | None => Raised KeyError
      | Some id =>
          match dict_get d "account_name" with
          | None => Raised KeyError
          | Some name =>
              match status_of_value (default (VStr "active") (dict_get d "status")) with
              | Ok st => Ok (mk id name st)
              | Raised e => Raised e
              | Diverged => Diverged
              end
          end
      end
  | _ => Raised TypeError
  end.

End OpenTextAccount.

(** ** A scripted upstream

    Ten accounts behind "https://api"; the upstream answers 404 for "a4"
    and a well-formed account document for every other one. *)

Module Scenario.

Definition api_base_url : string := "https://api".

Definition account_document (url : string) : pyval :=
  VDict [("account_id", VStr url); ("account_name", VStr "Acme")].

Definition http (method url : string) (calls : list (string * string)) : OpenTextService.http_result :=
  if String.eqb url "https://api/accounts/a4"
  then OpenTextService.HttpResponse 404 (VDict [("error", VStr "not found")])
  else OpenTextService.HttpResponse 200 (account_document url).

Definition account_ids : list string :=
  ["a1"; "a2"; "a3"; "a4"; "a5"; "a6"; "a7"; "a8"; "a9"; "a10"].

(** A fresh service: empty cache, full bucket at 10 requests/s. *)
Definition world0 : OpenTextService.World :=
  OpenTextService.mkWorld ∅ (RateLimiter.init 10 None) 0 [].

Definition get_account : string -> OpenTextService.M (option OpenTextAccount.t) :=
  OpenTextService.get_account api_base_url http 3 OpenTextAccount.t
    OpenTextAccount.from_dict.

Definition get_accounts_batch (batch_size : Z)
    : list string -> OpenTextService.M (list OpenTextAccount.t) :=
  OpenTextService.get_accounts_batch api_base_url batch_size http 3
    OpenTextAccount.t OpenTextAccount.from_dict.

End Scenario.

(** ** app/services/opentext_service.py: updates, health check, aggregation *)

Module ServiceCalls.

Import OpenTextService.

(** Why [health_check] reports "unhealthy": the exception that
    [_make_request] raised, or the [AttributeError] of calling [.get] on a
    response that is not a JSON object. *)
Inductive health_error : Type :=
  | RequestFailed (e : exn)
  | NotADocument.

(** The dictionary [health_check] returns: ['api_status'] is present when
    healthy, ['error'] when not; ['timestamp'] is kept as the time
    itself. *)
Record health : Type := mkHealth {
  healthy : bool;
  api_status : option pyval;
  error : option health_error;
  response_time_ms : Z;
  health_timestamp : Q
}.

(** The entry of [breakdown] for one account. *)
Record usage_totals : Type := mkTotals {
  totals_quantity : Q;
  totals_cost : Q;
  totals_count : nat
}.

(** The fields of [UsageAggregation] that [aggregate_usage] computes; the
    usage type and the period are passed through unchanged. *)
Record aggregation : Type := mkAggregation {
  agg_account_ids : list string;
  total_quantity : Q;
  total_cost : Q;
  breakdown : gmap string usage_totals
}.

(** [sum(f(x) for x in xs)], which starts from [0]. *)
Definition py_sum {X} (f : X -> Q) (xs : list X) : Q :=
  foldl (fun acc x => (acc + f x)%Q) 0%Q xs.

Section Calls.

Variable api_base_url : string.
Variable http : string -> string -> list (string * string) -> http_result.
Variable acquire_fuel : nat.

(** [await self.cache_manager.delete(cache_key)]. *)
Definition cache_delete (key : string) : M bool :=
  fun w => let '(found, c) := CacheManager.delete_ key (cache_manager w) in
           (Ok found, mkWorld c (rate_limiter w) (clock w) (http_log w)).

Section Updates.

(** A record object with the identifier that names its endpoint and its
    cache entry. *)
Variable R : Type.
Variable record_id : R -> string.
(** [account.last_updated = t]. *)
Variable set_last_updated : Q -> R -> R.

(** [OpenTextService.update_account]; returned with the flag is the
    account object as the call leaves it.  The upstream answers by method,
    URL and history, so [account.to_dict()] does not appear. *)
Definition update_account (account : R) : M (bool * R) :=
  fun w =>
    let account' := set_last_updated (clock w) account in
    except_api
      (_make_request api_base_url http acquire_fuel "PUT"
         ("/accounts/" ++ record_id account') None 300 ;;;
       cache_delete ("account:" ++ record_id account') ;;;
       ret (true, account'))
      (ret (false, account')) w.

End Updates.

(** [OpenTextService.health_check]: [except Exception] turns every
    exception into an "unhealthy" answer. *)
Definition health_check : M health :=
  fun w =>
    let start_time := clock w in
    let elapsed_ms w1 := py_int ((clock w1 - start_time) * 1000) in
    match _make_request api_base_url http acquire_fuel "GET" "/health" None 300 w with
    | (Ok response_data, w1) =>
        match response_data with
        | VDict d =>
            (Ok (mkHealth true
                   (Some (default (VStr "unknown") (OpenTextAccount.dict_get d "status")))
                   None (elapsed_ms w1) (clock w1)), w1)
        | _ => (Ok (mkHealth false None (Some NotADocument) (elapsed_ms w1) (clock w1)), w1)
        end
    | (Raised e, w1) =>
        (Ok (mkHealth false None (Some (RequestFailed e)) (elapsed_ms w1) (clock w1)), w1)
    | (Diverged, w1) => (Diverged, w1)
    end.

Section Aggregation.

(** [UsageData] with the three attributes [aggregate_usage] reads. *)
Variable U : Type.
Variable usage_account_id : U -> string.
Variable quantity : U -> Q.
Variable cost : U -> Q.
(** [self.get_usage_data(account_id, usage_type, start_date, end_date)] for
    the usage type and period of the call. *)
Variable get_usage_data : string -> M (list U).

(** The first loop of [aggregate_usage]. *)
Fixpoint collect_usage (account_ids : list string) (all_usage_data : list U)
    : M (list U) :=
  match account_ids with
  | [] => ret all_usage_data
  | account_id :: rest =>
      usage_data <- get_usage_data account_id ;;
      collect_usage rest (all_usage_data ++ usage_data)
  end.

(** [[usage for usage in all_usage_data if usage.account_id == account_id]]. *)
Definition account_usage (account_id : string) (all_usage_data : list U) : list U :=
  filter (fun usage => usage_account_id usage = account_id) all_usage_data.

(** The value stored under [breakdown[account_id]]. *)
Definition account_totals (account_id : string) (all_usage_data : list U)
    : usage_totals :=
  mkTotals (py_sum quantity (account_usage account_id all_usage_data))
           (py_sum cost (account_usage account_id all_usage_data))
           (length (account_usage account_id all_usage_data)).

(** The second loop of [aggregate_usage]. *)
Definition build_breakdown (account_ids : list string) (all_usage_data : list U)
    : gmap string usage_totals :=
  foldl (fun breakdown account_id =>
           <[account_id := account_totals account_id all_usage_data]> breakdown)
        ∅ account_ids.

(** [OpenTextService.aggregate_usage]. *)
Definition aggregate_usage (account_ids : list string) : M aggregation :=
  all_usage_data <- collect_usage account_ids [] ;;
  ret (mkAggregation account_ids
         (py_sum quantity all_usage_data)
         (py_sum cost all_usage_data)
         (build_breakdown account_ids all_usage_data)).

End Aggregation.

End Calls.

End ServiceCalls.

(** ** A malformed upstream

    The upstream answers every account request with a document that lacks
    "account_name". *)

Module Malformed.

Definition http (method url : string) (calls : list (string * string))
    : OpenTextService.http_result :=
  OpenTextService.HttpResponse 200 (VDict [("account_id", VStr url)]).

Definition get_account : string -> OpenTextService.M (option OpenTextAccount.t) :=
  OpenTextService.get_account Scenario.api_base_url http 3 OpenTextAccount.t
    OpenTextAccount.from_dict.

End Malformed.

(** ** A scripted usage feed

    Each account has two usage records of its own. *)

Module UsageScenario.

Definition usage : Type := string * Q * Q.

Definition get_usage_data (account_id : string) : OpenTextService.M (list usage) :=
  OpenTextService.ret [(account_id, 3%Q, 6%Q); (account_id, 1%Q, (1 # 2)%Q)].

Definition aggregate_usage : list string -> OpenTextService.M ServiceCalls.aggregation :=
  ServiceCalls.aggregate_usage usage (fun u => u.1.1) (fun u => u.1.2) (fun u => u.2)
    get_usage_data.

End UsageScenario.

(** ** app/models/opentext.py: the child list of an account

    [add_child_account] and [remove_child_account] read and write two
    attributes of the account, [child_accounts] and [last_updated]; they
    are modelled on that pair, with [now = datetime.now()]. *)

Module ChildAccounts.

Definition t : Type := list string * Q.

(** [list.remove(x)]: drops the first occurrence. *)
Fixpoint remove_first (x : string) (l : list string) : list string :=
  match l with
  | [] => []
  | y :: l' => if decide (y = x) then l' else y :: remove_first x l'
  end.

(** [OpenTextAccount.add_child_account]. *)
Definition add_child_account (child_account_id : string) (now : Q) (a : t) : t :=
  if decide (child_account_id ∈ a.1) then a
  else (a.1 ++ [child_account_id], now).

(** [OpenTextAccount.remove_child_account]. *)
Definition remove_child_account (child_account_id : string) (now : Q) (a : t) : t :=
  if decide (child_account_id ∈ a.1) then (remove_first child_account_id a.1, now)
  else a.

End ChildAccounts.

(** * Properties *)

(** ** Arithmetic on the idealised floats *)

Lemma Qltb_lt (a b : Q) : Qltb a b = true <-> (a < b)%Q.
Proof.
  unfold Qltb. rewrite negb_true_iff. split.
  - intros H. apply Qnot_le_lt. intros Hle.
    apply Qle_bool_iff in Hle. congruence.
  - intros H. destruct (Qle_bool b a) eqn:E; [|reflexivity].
    apply Qle_bool_iff in E. exfalso. exact (Qlt_not_le _ _ H E).
Qed.

Lemma Qltb_ge (a b : Q) : Qltb a b = false <-> (b <= a)%Q.
Proof.
  unfold Qltb. rewrite negb_false_iff. apply Qle_bool_iff.
Qed.

Lemma Qle_bool_false (a b : Q) : Qle_bool a b = false <-> (b < a)%Q.
Proof.
  rewrite <- Qltb_lt. unfold Qltb. rewrite negb_true_iff. reflexivity.
Qed.

Lemma py_int_floor (x : Q) : (0 <= x)%Q -> py_int x = Qfloor x.
Proof.
  destruct x as [n d]. unfold py_int, Qfloor, Qle. simpl. intros H.
  apply Z.quot_div_nonneg; lia.
Qed.

Lemma py_int_inject_Z (n : Z) : py_int (inject_Z n) = n.
Proof. unfold py_int. simpl. apply Z.quot_1_r. Qed.

Lemma py_int_ge (n : Z) (x : Q) : 0 <= n -> (inject_Z n <= x)%Q -> n <= py_int x.
Proof.
  intros Hn Hx.
  assert (H0 : (0 <= x)%Q).
  { eapply Qle_trans; [|exact Hx]. change 0%Q with (inject_Z 0).
    rewrite <- Zle_Qle. exact Hn. }
  rewrite (py_int_floor _ H0). rewrite <- (Qfloor_Z n).
  apply Qfloor_resp_le. exact Hx.
Qed.

Lemma py_min_le_l (a b : Q) : (py_min a b <= a)%Q.
Proof.
  unfold py_min. destruct (Qltb b a) eqn:E.
  - apply Qltb_lt in E. apply Qlt_le_weak. exact E.
  - apply Qle_refl.
Qed.

Lemma py_max_ge_l (a b : Q) : (a <= py_max a b)%Q.
Proof.
  unfold py_max. destruct (Qltb a b) eqn:E.
  - apply Qltb_lt in E. apply Qlt_le_weak. exact E.
  - apply Qle_refl.
Qed.

Lemma py_clamp_bounds (lo hi x : Q) :
  (lo <= hi)%Q ->
  (lo <= py_max lo (py_min hi x))%Q /\ (py_max lo (py_min hi x) <= hi)%Q.
Proof.
  intros Hlh. split; [apply py_max_ge_l|].
  unfold py_max. destruct (Qltb lo (py_min hi x)); [apply py_min_le_l | exact Hlh].
Qed.

(** ** The token bucket *)

Section RefillRule.

Import RateLimiter.

(** The very first refill check only records the time. *)
Lemma refill_first_check (now : Q) (s : t) :
  last_refill s = None ->
  _refill_tokens now s =
    mk (requests_per_second s) (max_tokens s) (current_tokens s) (Some now).
Proof. intros H. unfold _refill_tokens. rewrite H. reflexivity. Qed.

Lemma refill_commit (now last : Q) (s : t) :
  last_refill s = Some last ->
  (1 <= (now - last) * requests_per_second s)%Q ->
  _refill_tokens now s =
    mk (requests_per_second s) (max_tokens s)
       (Z.min (max_tokens s)
              (current_tokens s + py_int ((now - last) * requests_per_second s)))
       (Some now).
Proof.
  intros Hl Hge. unfold _refill_tokens. rewrite Hl.
  apply Qle_bool_iff in Hge. rewrite Hge. reflexivity.
Qed.




End RefillRule.

Section BucketInvariant.

Import RateLimiter.

Lemma refill_preserves_inv (now : Q) (s : t) :
  bucket_inv s -> bucket_inv (_refill_tokens now s).
Proof.
  unfold bucket_inv, _refill_tokens. intros [H0 H1].
  destruct (last_refill s) as [last|]; simpl; [|lia].
  destruct (Qle_bool 1 ((now - last) * requests_per_second s)) eqn:E; simpl; [|lia].
  apply Qle_bool_iff in E.
  assert (0 <= py_int ((now - last) * requests_per_second s)).
  { etrans; [|apply py_int_ge; [|exact E]]; lia. }
  lia.
Qed.

Lemma refill_tokens_mono (now : Q) (s : t) :
  bucket_inv s -> current_tokens s <= current_tokens (_refill_tokens now s).
Proof.
  unfold bucket_inv, _refill_tokens. intros [H0 H1].
  destruct (last_refill s) as [last|]; simpl; [|lia].
  destruct (Qle_bool 1 ((now - last) * requests_per_second s)) eqn:E; simpl; [|lia].
  apply Qle_bool_iff in E.
  assert (0 <= py_int ((now - last) * requests_per_second s)).
  { etrans; [|apply py_int_ge; [|exact E]]; lia. }
  lia.
Qed.

Lemma acquire_preserves_inv (fuel : nat) (n : Z) (clock : Q) (s s' : t) (clock' : Q) :
  0 <= n -> bucket_inv s ->
  acquire fuel n clock s = Ok (s', clock') -> bucket_inv s'.
Proof.
  intros Hn. revert clock s.
  induction fuel as [|fuel IH]; intros clock s Hinv Hacq; simpl in Hacq; [discriminate|].
  destruct (current_tokens s <? n) eqn:Elt.
  - destruct (Qeq_bool (requests_per_second s) 0); [discriminate|].
    eapply IH; [|exact Hacq]. apply refill_preserves_inv. exact Hinv.
  - apply Z.ltb_ge in Elt. injection Hacq as <- _.
    destruct Hinv as [H0 H1]. unfold bucket_inv, consume. simpl. lia.
Qed.

Lemma try_acquire_preserves_inv (n : Z) (now : Q) (s : t) :
  0 <= n -> bucket_inv s -> bucket_inv (try_acquire n now s).2.
Proof.
  intros Hn Hinv. unfold try_acquire.
  pose proof (refill_preserves_inv now s Hinv) as [H0 H1].
  destruct (n <=? current_tokens (_refill_tokens now s)) eqn:E; simpl.
  - apply Z.leb_le in E. unfold bucket_inv, consume. simpl. lia.
  - split; assumption.
Qed.

Lemma reset_preserves_inv (now : Q) (s : t) :
  bucket_inv s -> bucket_inv (reset now s).
Proof. unfold bucket_inv, reset. simpl. lia. Qed.

Lemma step_preserves_inv (o : op) (s s' : t) :
  0 <= requested o -> bucket_inv s -> step o s = Some s' -> bucket_inv s'.
Proof.
  destruct o as [fuel n clock | n now | now]; simpl; intros Hn Hinv Hs.
  - destruct (acquire fuel n clock s) as [[s1 c1]| |] eqn:E; try discriminate.
    injection Hs as <-. eapply acquire_preserves_inv; eauto.
  - injection Hs as <-. by apply try_acquire_preserves_inv.
  - injection Hs as <-. by apply reset_preserves_inv.
Qed.

Lemma run_preserves_inv (ops : list op) (s s' : t) :
  Forall (fun o => 0 <= requested o) ops ->
  bucket_inv s -> run ops s = Some s' -> bucket_inv s'.
Proof.
  intros Hops. revert s. induction Hops as [|o ops Ho _ IH]; intros s Hinv Hrun.
  - injection Hrun as <-. exact Hinv.
  - simpl in Hrun. destruct (step o s) as [s1|] eqn:E; [|discriminate].
    eapply IH; [|exact Hrun]. eapply step_preserves_inv; eauto.
Qed.

Lemma record_response_tokens (ts : Q) (status : Z) (rtime : Q) (is_err : bool)
    (a : AdaptiveRateLimiter.t) :
  current_tokens (AdaptiveRateLimiter.base
                    (AdaptiveRateLimiter.record_response ts status rtime is_err a))
  = current_tokens (AdaptiveRateLimiter.base a).
Proof.
  unfold AdaptiveRateLimiter.record_response, AdaptiveRateLimiter._adjust_rate.
  destruct (AdaptiveRateLimiter.proposed_rate _ _ _ _); [|reflexivity].
  destruct (negb _); reflexivity.
Qed.

Lemma refill_commit_clamps (now last : Q) (s : t) :
  last_refill s = Some last ->
  (1 <= (now - last) * requests_per_second s)%Q ->
  current_tokens (_refill_tokens now s) <= max_tokens (_refill_tokens now s).
Proof.
  intros Hl Hge. rewrite (refill_commit now last s Hl Hge). simpl. lia.
Qed.

End BucketInvariant.

(** C4.  On the base limiter every run of [acquire], [try_acquire] and
    [reset] calls that ask for non-negative token counts keeps
    [0 <= tokens <= capacity].  [record_response] leaves the token count
    untouched while it re-derives the capacity, so the upper bound is not
    guaranteed right after a rate change; a refill check that commits
    ([tokens_to_add >= 1]) brings the tokens back under the capacity. *)
Theorem bucket_invariant :
  (forall (ops : list RateLimiter.op) (s s' : RateLimiter.t),
     Forall (fun o => 0 <= RateLimiter.requested o) ops ->
     RateLimiter.bucket_inv s ->
     RateLimiter.run ops s = Some s' ->
     RateLimiter.bucket_inv s')
  /\ (forall (ts : Q) (status : Z) (rtime : Q) (is_err : bool)
             (a : AdaptiveRateLimiter.t),
        RateLimiter.current_tokens
          (AdaptiveRateLimiter.base
             (AdaptiveRateLimiter.record_response ts status rtime is_err a))
        = RateLimiter.current_tokens (AdaptiveRateLimiter.base a))
  /\ (forall (now last : Q) (s : RateLimiter.t),
        RateLimiter.last_refill s = Some last ->
        (1 <= (now - last) * RateLimiter.requests_per_second s)%Q ->
        RateLimiter.current_tokens (RateLimiter._refill_tokens now s)
        <= RateLimiter.max_tokens (RateLimiter._refill_tokens now s)).
Proof.
  split; [exact run_preserves_inv|].
  split; [exact record_response_tokens | exact refill_commit_clamps].
Qed.

(** Capacity 5 at 5 tokens/s: five [try_acquire] calls, a reset and an
    [acquire] keep the invariant; a 429 on a full adaptive bucket keeps its
    10 tokens; the refill one second later clamps them. *)
Lemma bucket_invariant_witness :
  let s0 := RateLimiter.init 5 (Some 5) in
  let ops := [RateLimiter.TryAcquire 1 0; RateLimiter.TryAcquire 1 0;
              RateLimiter.TryAcquire 5 (1 # 2); RateLimiter.Reset 1;
              RateLimiter.Acquire 3 2 1] in
  let a1 := AdaptiveRateLimiter.record_response 0 429 (1 # 8) false
              (AdaptiveRateLimiter.init 10 1 100 (1 # 4)) in
  let b1 := RateLimiter._refill_tokens 0 (AdaptiveRateLimiter.base a1) in
  RateLimiter.bucket_inv (RateLimiter.mk 5 5 3 (Some 1%Q))
  /\ RateLimiter.current_tokens (AdaptiveRateLimiter.base a1) = 10
  /\ RateLimiter.current_tokens (RateLimiter._refill_tokens 1 b1)
     <= RateLimiter.max_tokens (RateLimiter._refill_tokens 1 b1).
Proof.
  intros s0 ops a1 b1.
  destruct bucket_invariant as (Hrun & Hrec & Hclamp).
  split; [|split].
  - apply (Hrun ops s0).
    + repeat constructor; simpl; lia.
    + unfold RateLimiter.bucket_inv. simpl. lia.
    + reflexivity.
  - unfold a1. rewrite Hrec. reflexivity.
  - apply (Hclamp 1%Q 0%Q b1); [reflexivity | vm_compute; discriminate].
Defined.

(** C4 as stated fails: a full bucket of an adaptive limiter at 10
    requests/s with adaptation factor 0.25 receives one 429.  The rate and
    the capacity drop to 5 while the 10 tokens stay, and neither the refill
    checks that follow at once nor an [acquire] restore the bound. *)
Lemma bucket_invariant_counterexample :
  let a1 := AdaptiveRateLimiter.record_response 0 429 (1 # 8) false
              (AdaptiveRateLimiter.init 10 1 100 (1 # 4)) in
  let b1 := AdaptiveRateLimiter.base a1 in
  RateLimiter.bucket_inv (AdaptiveRateLimiter.base (AdaptiveRateLimiter.init 10 1 100 (1 # 4)))
  /\ RateLimiter.current_tokens b1 = 10
  /\ RateLimiter.max_tokens b1 = 5
  /\ ~ RateLimiter.bucket_inv b1
  /\ ~ RateLimiter.bucket_inv
        (RateLimiter._refill_tokens (1 # 16) (RateLimiter._refill_tokens 0 b1))
  /\ (exists s2, RateLimiter.step (RateLimiter.Acquire 1 1 0) b1 = Some s2
                 /\ ~ RateLimiter.bucket_inv s2).
Proof.
  unfold RateLimiter.bucket_inv.
  repeat split; try (vm_compute; congruence); try reflexivity.
  - vm_compute. intros [_ H]. apply H. reflexivity.
  - vm_compute. intros [_ H]. apply H. reflexivity.
  - eexists. split; [reflexivity|]. vm_compute. intros [_ H]. apply H. reflexivity.
Qed.

(** ** The adaptive rate *)

Section AdaptiveBounds.

Import AdaptiveRateLimiter.

Lemma record_response_min (ts : Q) (status : Z) (rtime : Q) (is_err : bool) (a : t) :
  min_requests_per_second (record_response ts status rtime is_err a)
  = min_requests_per_second a.
Proof.
  unfold record_response, _adjust_rate.
  destruct (proposed_rate _ _ _ _); [|reflexivity].
  destruct (negb _); reflexivity.
Qed.

Lemma record_response_max (ts : Q) (status : Z) (rtime : Q) (is_err : bool) (a : t) :
  max_requests_per_second (record_response ts status rtime is_err a)
  = max_requests_per_second a.
Proof.
  unfold record_response, _adjust_rate.
  destruct (proposed_rate _ _ _ _); [|reflexivity].
  destruct (negb _); reflexivity.
Qed.

Lemma adjust_rate_in_bounds (status : Z) (rtime : Q) (is_err : bool) (a : t) :
  (min_requests_per_second a <= max_requests_per_second a)%Q ->
  in_bounds a \/ is_Some (proposed_rate a status rtime is_err) ->
  in_bounds (_adjust_rate status rtime is_err a).
Proof.
  intros Hmm Hcase. unfold _adjust_rate.
  destruct (proposed_rate a status rtime is_err) as [r|] eqn:Ep.
  - pose proof (py_clamp_bounds _ _ r Hmm) as [Hlo Hhi].
    destruct (Qeq_bool _ (rate a)) eqn:Eq; simpl.
    + apply Qeq_bool_iff in Eq. unfold in_bounds. rewrite <- Eq. split; assumption.
    + unfold in_bounds, rate. simpl. split; assumption.
  - destruct Hcase as [H|[x Hx]]; [exact H | discriminate].
Qed.

Lemma record_response_in_bounds (ts : Q) (status : Z) (rtime : Q) (is_err : bool) (a : t) :
  (min_requests_per_second a <= max_requests_per_second a)%Q ->
  in_bounds a \/ is_Some (proposed_rate a status rtime is_err) ->
  in_bounds (record_response ts status rtime is_err a).
Proof.
  intros Hmm Hcase. unfold record_response.
  apply adjust_rate_in_bounds; [exact Hmm | exact Hcase].
Qed.

(** X25.  When the bounds are ordered ([min_rate <= max_rate]) and the
    limiter starts with its rate inside them, the rate is inside
    [[min_rate, max_rate]] after every run of [record_response] calls;
    and whatever the starting rate, it is inside them after any call that
    takes one of the four adjusting branches. *)
Theorem adaptive_rate_bounds (a : t) (calls : list ResponseSample) :
  (min_requests_per_second a <= max_requests_per_second a)%Q ->
  (in_bounds a -> in_bounds (record_all calls a))
  /\ (forall ts status rtime is_err,
        is_Some (proposed_rate a status rtime is_err) ->
        in_bounds (record_response ts status rtime is_err a)).
Proof.
  intros Hmm. split.
  - revert a Hmm. unfold record_all.
    induction calls as [|r calls IH]; intros a Hmm Hin; [exact Hin|].
    simpl. apply IH.
    + rewrite record_response_min, record_response_max. exact Hmm.
    + apply record_response_in_bounds; [exact Hmm | left; exact Hin].
  - intros ts status rtime is_err Hp.
    apply record_response_in_bounds; [exact Hmm | right; exact Hp].
Qed.

(** From 10 requests/s within [1, 100]: a 429, a fast 200 and a slow
    response; and a limiter started at 200 requests/s is back within the
    bounds after one 429. *)
Lemma adaptive_rate_bounds_witness :
  in_bounds (record_all [mkSample 0 429 (1 # 8) false;
                         mkSample 1 200 (1 # 4) false;
                         mkSample 2 200 6 false]
                        (init 10 1 100 (1 # 4)))
  /\ in_bounds (record_response 0 429 (1 # 8) false (init 200 1 100 (1 # 4))).
Proof.
  assert (Hmm : forall i, (min_requests_per_second (init i 1 100 (1 # 4))
                           <= max_requests_per_second (init i 1 100 (1 # 4)))%Q).
  { intros i. vm_compute. discriminate. }
  split.
  - refine (proj1 (adaptive_rate_bounds (init 10 1 100 (1 # 4)) _ (Hmm 10%Q)) _).
    split; vm_compute; discriminate.
  - refine (proj2 (adaptive_rate_bounds (init 200 1 100 (1 # 4)) [] (Hmm 200%Q))
                  _ _ _ _ _).
    eexists. reflexivity.
Defined.

(** C5.  The invariant of the claim is what the class documents
    ("Maximum allowed request rate") and what [_adjust_rate] enforces on
    every adjusting branch ("Apply bounds"); the constructor and the early
    [return] miss it.  [AdaptiveRateLimiter(200.0, 1.0, 100.0)], as built
    from settings with [requests_per_second = 200] and the default bounds
    and adaptation factor, has a rate of 200 above its maximum of 100, and
    keeps it through a response that adjusts nothing (a 200 answered in
    2 s); one 429, or one fast success, brings it to 100. *)
Theorem adaptive_rate_unclamped_at_construction :
  let a := init 200 1 100 (1 # 10) in
  rate a = 200%Q
  /\ max_requests_per_second a = 100%Q
  /\ ~ in_bounds a
  /\ ~ in_bounds (record_response 0 200 2 false a)
  /\ in_bounds (record_response 0 429 (1 # 8) false a)
  /\ rate (record_response 0 200 (1 # 2) false a) = 100%Q.
Proof.
  unfold in_bounds. repeat split.
  - vm_compute. intros [_ H]. apply H. reflexivity.
  - vm_compute. intros [_ H]. apply H. reflexivity.
  - vm_compute. discriminate.
  - vm_compute. discriminate.
Qed.

End AdaptiveBounds.

(** ** Configuration and the wait loop *)

Section AcquireLoop.

Import RateLimiter.

Lemma acquire_no_raise (fuel : nat) (n : Z) (clock : Q) (s : t) (e : exn) :
  ~ (requests_per_second s == 0)%Q ->
  acquire fuel n clock s <> Raised e.
Proof.
  intros Hr. revert clock s Hr.
  induction fuel as [|fuel IH]; intros clock s Hr; simpl; [discriminate|].
  destruct (current_tokens s <? n); [|discriminate].
  destruct (Qeq_bool (requests_per_second s) 0) eqn:E.
  - apply Qeq_bool_iff in E. contradiction.
  - apply IH. unfold _refill_tokens.
    destruct (last_refill s); [|exact Hr].
    destruct (Qle_bool _ _); exact Hr.
Qed.

Lemma acquire_zero_rate (fuel : nat) (n : Z) (clock : Q) (s : t) :
  (requests_per_second s == 0)%Q ->
  current_tokens s < n ->
  acquire (S fuel) n clock s = Raised ZeroDivisionError.
Proof.
  intros Hr Hlt. simpl.
  apply Z.ltb_lt in Hlt. rewrite Hlt.
  apply Qeq_bool_iff in Hr. rewrite Hr. reflexivity.
Qed.

Lemma wait_time_pos (needed : Z) (r : Q) :
  0 < needed -> (0 < r)%Q -> (0 < inject_Z needed / r)%Q.
Proof.
  intros Hn Hr. apply Qlt_shift_div_l; [exact Hr|].
  rewrite Qmult_0_l. change 0%Q with (inject_Z 0). rewrite <- Zlt_Qlt. exact Hn.
Qed.

(** A limiter whose rate is zero never refills. *)
Lemma try_acquire_zero_rate (n : Z) (now : Q) (s : t) :
  (requests_per_second s == 0)%Q ->
  (try_acquire n now s).1 = (n <=? current_tokens s).
Proof.
  intros Hr. unfold try_acquire.
  assert (Hcur : current_tokens (_refill_tokens now s) = current_tokens s).
  { unfold _refill_tokens. destruct (last_refill s) as [last|]; [|reflexivity].
    destruct (Qle_bool 1 ((now - last) * requests_per_second s)) eqn:E; [|reflexivity].
    apply Qle_bool_iff in E. rewrite Hr, Qmult_0_r in E. lra. }
  rewrite Hcur. by destruct (n <=? current_tokens s).
Qed.

(** [int()] of a non-positive float is non-positive. *)
Lemma py_int_nonpos (x : Q) : (x <= 0)%Q -> py_int x <= 0.
Proof.
  intros Hx. unfold py_int.
  assert (Hn : Qnum x <= 0).
  { unfold Qle in Hx. simpl in Hx. lia. }
  replace (Qnum x) with (- - Qnum x) by lia.
  rewrite Z.quot_opp_l by lia.
  pose proof (Z.quot_pos (- Qnum x) (Z.pos (Qden x)) ltac:(lia) ltac:(lia)). lia.
Qed.

(** A request above the capacity is never served: every refill clamps the
    tokens to the capacity, so the loop test stays true. *)
Lemma acquire_above_capacity (fuel : nat) (n : Z) (clock : Q) (s : t) :
  ~ (requests_per_second s == 0)%Q ->
  current_tokens s <= max_tokens s -> max_tokens s < n ->
  acquire fuel n clock s = Diverged.
Proof.
  intros Hr. revert clock s Hr.
  induction fuel as [|fuel IH]; intros clock s Hr Hcur Hcap; simpl; [reflexivity|].
  destruct (current_tokens s <? n) eqn:E; [|apply Z.ltb_ge in E; lia].
  destruct (Qeq_bool (requests_per_second s) 0) eqn:E0.
  { apply Qeq_bool_iff in E0. contradiction. }
  apply IH; unfold _refill_tokens; destruct (last_refill s); simpl; try assumption;
    destruct (Qle_bool _ _); simpl; try assumption; lia.
Qed.

End AcquireLoop.

(** Capacity 5 at 5 requests/s: five immediate admissions, a refusal, and
    an admission again one second later. *)
Example burst_of_five_example :
  let s0 := RateLimiter.init 5 (Some 5) in
  let at0 s := RateLimiter.try_acquire 1 0 s in
  let s5 := (at0 (at0 (at0 (at0 (at0 s0).2).2).2).2).2 in
  (at0 s0).1 = true
  /\ RateLimiter.current_tokens s5 = 0
  /\ (at0 s5).1 = false
  /\ (RateLimiter.try_acquire 1 1 (at0 s5).2).1 = true.
Proof. repeat split. Qed.

(** [RateLimiter(0.5)] has capacity [int(0.5) = 0]: its [acquire()] waits
    two seconds over and over. *)
Example half_rate_never_admits_example (fuel : nat) :
  RateLimiter.acquire fuel 1 0 (RateLimiter.init (1 # 2) None) = Diverged.
Proof.
  apply acquire_above_capacity.
  - discriminate.
  - reflexivity.
  - reflexivity.
Qed.

(** C2.  The constructor checks neither the rate nor the capacity (the
    positive-rate check is made when the settings are loaded): a
    non-positive rate is stored as given, with a non-positive capacity
    [int(rate)] when no burst capacity is passed, and a negative burst
    capacity is stored as given.  What a later call does then depends on
    the rate: [try_acquire] never divides, and [acquire] divides by the
    rate only.  With a non-zero rate no [acquire] call raises
    [ZeroDivisionError]; with a zero rate [try_acquire] still answers, from
    the tokens at hand, and [acquire] raises [ZeroDivisionError] at call
    time as soon as the bucket holds fewer tokens than requested.  Rates
    are finite floats. *)
Theorem acquire_configuration :
  (forall (rps : Q) (burst_capacity : option Z),
     (rps <= 0)%Q ->
     RateLimiter.requests_per_second (RateLimiter.init rps burst_capacity) = rps
     /\ (burst_capacity = None ->
         RateLimiter.max_tokens (RateLimiter.init rps burst_capacity) <= 0))
  /\ (forall (rps : Q) (b : Z),
        b < 0 -> RateLimiter.max_tokens (RateLimiter.init rps (Some b)) = b)
  /\ (forall (fuel : nat) (n : Z) (clock : Q) (s : RateLimiter.t),
        ~ (RateLimiter.requests_per_second s == 0)%Q ->
        RateLimiter.acquire fuel n clock s <> Raised ZeroDivisionError)
  /\ (forall (n : Z) (now : Q) (s : RateLimiter.t),
        (RateLimiter.requests_per_second s == 0)%Q ->
        (RateLimiter.try_acquire n now s).1 = (n <=? RateLimiter.current_tokens s))
  /\ (forall (fuel : nat) (n : Z) (clock : Q) (s : RateLimiter.t),
        (RateLimiter.requests_per_second s == 0)%Q ->
        RateLimiter.current_tokens s < n ->
        RateLimiter.acquire (S fuel) n clock s = Raised ZeroDivisionError).
Proof.
  split.
  { intros rps burst_capacity Hrps. split; [reflexivity|].
    intros ->. simpl. by apply py_int_nonpos. }
  split.
  { intros rps b Hb. simpl. destruct (b =? 0) eqn:E; [|reflexivity].
    apply Z.eqb_eq in E. lia. }
  split.
  { intros fuel n clock s Hr. by apply acquire_no_raise. }
  split; [exact try_acquire_zero_rate | exact acquire_zero_rate].
Qed.

(** A limiter built with a rate of -2 and no burst capacity; an empty
    bucket at 2 tokens/s asked for 3 tokens; and a bucket of 4 tokens
    holding 2 with a rate of zero. *)
Lemma acquire_configuration_witness :
  RateLimiter.init (-2) None = RateLimiter.mk (-2) (-2) (-2) None
  /\ RateLimiter.max_tokens (RateLimiter.init 10 (Some (-3))) = -3
  /\ RateLimiter.acquire 3 3 10 (RateLimiter.mk 2 4 0 None) <> Raised ZeroDivisionError
  /\ (RateLimiter.try_acquire 2 10 (RateLimiter.mk 0 4 2 (Some 0%Q))).1 = true
  /\ (RateLimiter.try_acquire 3 10 (RateLimiter.mk 0 4 2 (Some 0%Q))).1 = false
  /\ RateLimiter.acquire 1 3 10 (RateLimiter.mk 0 4 2 (Some 0%Q))
     = Raised ZeroDivisionError.
Proof.
  destruct acquire_configuration as (Hinit & Hburst & Hsafe & Htry & Hzero).
  destruct (Hinit (-2)%Q None) as [_ Hcap]; [vm_compute; discriminate|].
  specialize (Hcap eq_refl).
  split; [reflexivity|].
  split; [apply Hburst; lia|].
  split; [apply Hsafe; vm_compute; discriminate|].
  split; [rewrite Htry; reflexivity|].
  split; [rewrite Htry; reflexivity|].
  apply Hzero; [reflexivity | simpl; lia].
Defined.

(** C2 as stated fails: [RateLimiter(0.0)] is constructed without an
    error, with capacity [int(0.0) = 0], and its first [acquire()] divides
    by the rate. *)
Lemma acquire_configuration_counterexample :
  RateLimiter.init 0 None = RateLimiter.mk 0 0 0 None
  /\ RateLimiter.acquire 1 1 0 (RateLimiter.init 0 None) = Raised ZeroDivisionError
  /\ RateLimiter.init 0 (Some 2) = RateLimiter.mk 0 2 2 None
  /\ (RateLimiter.try_acquire 2 0 (RateLimiter.init 0 (Some 2))).1 = true
  /\ RateLimiter.acquire 1 1 0
       (RateLimiter.try_acquire 2 0 (RateLimiter.init 0 (Some 2))).2
     = Raised ZeroDivisionError.
Proof. repeat split. Qed.

(** ** The TTL cache *)

Section CacheFacts.

Import CacheManager.

Lemma elem_of_keys (c : cache) (k : string) : k ∈ keys c <-> is_Some (c !! k).
Proof.
  unfold keys. rewrite list_elem_of_fmap. split.
  - intros [[k' e] [-> Hin]]. apply elem_of_map_to_list in Hin. simpl. eauto.
  - intros [e He]. exists (k, e). split; [reflexivity|].
    by apply elem_of_map_to_list.
Qed.

Lemma lookup_del_all (ks : list string) (c : cache) (k : string) :
  del_all ks c !! k = if decide (k ∈ ks) then None else c !! k.
Proof.
  unfold del_all. revert c. induction ks as [|k' ks IH]; intros c; simpl.
  - destruct (decide (k ∈ [])) as [Hin|]; [|reflexivity].
    by apply not_elem_of_nil in Hin.
  - rewrite IH.
    destruct (decide (k ∈ ks)) as [Hin|Hnin];
      destruct (decide (k ∈ k' :: ks)) as [Hin'|Hnin']; try reflexivity.
    + exfalso. apply Hnin'. by right.
    + apply elem_of_cons in Hin' as [->|?]; [|contradiction].
      apply lookup_delete_eq.
    + apply lookup_delete_ne. intros ->. apply Hnin'. by left.
Qed.

Lemma lookup_cleanup_expired (now : Q) (c : cache) (k : string) :
  _cleanup_expired now c !! k =
    match c !! k with
    | Some e => if Qle_bool (expires_at e) now then None else Some e
    | None => None
    end.
Proof.
  unfold _cleanup_expired. rewrite lookup_del_all.
  destruct (c !! k) as [e|] eqn:Hk.
  - destruct (Qle_bool (expires_at e) now) eqn:Ex.
    + rewrite decide_True; [reflexivity|].
      apply list_elem_of_fmap. exists (k, e). split; [reflexivity|].
      apply list_elem_of_filter. split; [simpl; by rewrite Ex|].
      by apply elem_of_map_to_list.
    + rewrite decide_False; [reflexivity|].
      intros [[k' e'] [Heq [Hp Hin]%list_elem_of_filter]]%list_elem_of_fmap.
      simpl in Heq. subst k'. apply elem_of_map_to_list in Hin.
      rewrite Hk in Hin. injection Hin as <-. simpl in Hp. by rewrite Ex in Hp.
  - destruct (decide _) as [Hin|]; [|reflexivity]. reflexivity.
Qed.

Lemma get_set_live (k : string) (v : pyval) (ttl : Z) (t0 t1 : Q) (c : cache) :
  (t1 < t0 + inject_Z ttl)%Q -> (get k t1 (set k v ttl t0 c)).1 = v.
Proof.
  intros Hlt. unfold get, set. rewrite lookup_insert_eq. simpl.
  apply Qle_bool_false in Hlt. rewrite Hlt. reflexivity.
Qed.

Lemma get_expired (k : string) (e : CacheEntry) (now : Q) (c : cache) :
  c !! k = Some e -> (expires_at e <= now)%Q -> get k now c = (VNone, delete k c).
Proof.
  intros Hk Hex. unfold get. rewrite Hk.
  apply Qle_bool_iff in Hex. rewrite Hex. reflexivity.
Qed.

Section WithPatterns.

Variable re_compile : string -> option (string -> bool).

(** A call that is neither [set] nor [touch] on [k] leaves the entry of
    [k] as it is or removes it. *)
Lemma apply_op_entry (k : string) (o : op) (c : cache) :
  writes_expiry k o = false ->
  apply_op re_compile o c !! k = c !! k \/ apply_op re_compile o c !! k = None.
Proof.
  destruct o as [k' now|k' v ttl now|k'|p|k' now|k' ttl now|p|now]; simpl; intros Hw.
  - unfold get. destruct (c !! k') as [e|]; [|by left].
    destruct (Qle_bool _ _); simpl; [|by left].
    destruct (decide (k' = k)) as [->|Hne].
    + right. apply lookup_delete_eq.
    + left. by apply lookup_delete_ne.
  - apply String.eqb_neq in Hw. left. unfold set. by apply lookup_insert_ne.
  - unfold delete_. destruct (c !! k') as [e|]; simpl; [|by left].
    destruct (decide (k' = k)) as [->|Hne].
    + right. apply lookup_delete_eq.
    + left. by apply lookup_delete_ne.
  - unfold clear. destruct p as [p|]; simpl.
    + destruct (re_compile p) as [m|]; simpl; [|by left].
      rewrite lookup_del_all. destruct (decide _); [by right | by left].
    + right. apply lookup_empty.
  - unfold exists_, get. destruct (c !! k') as [e|]; [|by left].
    destruct (Qle_bool _ _); simpl; [|by left].
    destruct (decide (k' = k)) as [->|Hne].
    + right. apply lookup_delete_eq.
    + left. by apply lookup_delete_ne.
  - apply String.eqb_neq in Hw. unfold touch.
    destruct (c !! k') as [e|]; [|by left].
    destruct (Qle_bool _ _); simpl; [by left|].
    left. by apply lookup_insert_ne.
  - by left.
  - rewrite lookup_cleanup_expired. destruct (c !! k) as [e|]; [|by left].
    destruct (Qle_bool _ _); [by right | by left].
Qed.

Lemma apply_ops_entry (k : string) (ops : list op) (c : cache) :
  Forall (fun o => writes_expiry k o = false) ops ->
  apply_ops re_compile ops c !! k = c !! k
  \/ apply_ops re_compile ops c !! k = None.
Proof.
  intros Hops. revert c. unfold apply_ops.
  induction Hops as [|o ops Ho _ IH]; intros c; simpl; [by left|].
  destruct (IH (apply_op re_compile o c)) as [H|H]; [|by right].
  rewrite H. by apply apply_op_entry.
Qed.

Lemma get_after_expiry (k : string) (v : pyval) (ttl : Z) (t0 t1 : Q)
    (ops : list op) (c : cache) :
  (t0 + inject_Z ttl <= t1)%Q ->
  Forall (fun o => writes_expiry k o = false) ops ->
  (get k t1 (apply_ops re_compile ops (set k v ttl t0 c))).1 = VNone.
Proof.
  intros Hge Hops.
  destruct (apply_ops_entry k ops (set k v ttl t0 c) Hops) as [H|H];
    unfold get; rewrite H; [|reflexivity].
  unfold set. rewrite lookup_insert_eq. simpl.
  apply Qle_bool_iff in Hge. rewrite Hge. reflexivity.
Qed.

End WithPatterns.

End CacheFacts.

(** C8.  [set(k, v, ttl)] at time [t0] followed by [get(k)] at a time
    before [t0 + ttl] returns [v]; a [get(k)] at [t0 + ttl] or later
    returns [None], whatever calls were made on the cache in between, as
    long as none of them is a [set] or a [touch] on [k].  No condition on
    [ttl] is needed, so this covers every [ttl > 0]. *)
Theorem set_then_get (re_compile : string -> option (string -> bool))
    (k : string) (v : pyval) (ttl : Z) (t0 t1 : Q)
    (ops : list CacheManager.op) (c : gmap string CacheManager.CacheEntry) :
  ((t1 < t0 + inject_Z ttl)%Q ->
     (CacheManager.get k t1 (CacheManager.set k v ttl t0 c)).1 = v)
  /\ ((t0 + inject_Z ttl <= t1)%Q ->
      Forall (fun o => CacheManager.writes_expiry k o = false) ops ->
      (CacheManager.get k t1
         (CacheManager.apply_ops re_compile ops (CacheManager.set k v ttl t0 c))).1
      = VNone).
Proof.
  split.
  - apply get_set_live.
  - apply get_after_expiry.
Qed.

(** A value stored for 300 s at time 100 is read back at 399.5 and is gone
    at 400, also after reads, a sweep and writes to another key. *)
Lemma set_then_get_witness :
  let c := CacheManager.set "account:7" (VStr "old") 60 0 ∅ in
  let ops := [CacheManager.OpGet "account:7" 200;
              CacheManager.OpSet "account:8" (VInt 8) 600 250;
              CacheManager.OpCleanup 300;
              CacheManager.OpClear (Some "porting:.*")] in
  (CacheManager.get "account:7" (799 # 2)
     (CacheManager.set "account:7" (VStr "new") 300 100 c)).1 = VStr "new"
  /\ (CacheManager.get "account:7" 400
        (CacheManager.apply_ops Re.compile ops
           (CacheManager.set "account:7" (VStr "new") 300 100 c))).1 = VNone.
Proof.
  intros c ops.
  destruct (set_then_get Re.compile "account:7" (VStr "new") 300 100 (799 # 2) [] c)
    as [Hlive _].
  destruct (set_then_get Re.compile "account:7" (VStr "new") 300 100 400 ops c)
    as [_ Hgone].
  split.
  - apply Hlive. reflexivity.
  - apply Hgone.
    + vm_compute. discriminate.
    + repeat constructor.
Defined.

(** C3.  For a key whose entry is still stored with [expires_at <= now]:
    [get] returns [None] and [exists] returns [False], both removing the
    entry; [touch] returns [False] and leaves it as it is; [delete] does not
    look at the expiry, removes the entry and returns [True]; [get_keys]
    does not look at it either and lists the key, without a pattern and
    with any pattern that matches the key. *)
Theorem expired_entry_operations (re_compile : string -> option (string -> bool))
    (key : string) (entry : CacheManager.CacheEntry) (now : Q) (ttl : Z)
    (c : gmap string CacheManager.CacheEntry) :
  c !! key = Some entry ->
  (CacheManager.expires_at entry <= now)%Q ->
  CacheManager.get key now c = (VNone, delete key c)
  /\ CacheManager.exists_ key now c = (false, delete key c)
  /\ CacheManager.touch key ttl now c = (false, c)
  /\ CacheManager.delete_ key c = (true, delete key c)
  /\ (exists ks, CacheManager.get_keys re_compile None c = Ok ks /\ key ∈ ks)
  /\ (forall p regex_match,
        re_compile p = Some regex_match -> regex_match key = true ->
        exists ks, CacheManager.get_keys re_compile (Some p) c = Ok ks /\ key ∈ ks).
Proof.
  intros Hk Hex.
  pose proof (get_expired key entry now c Hk Hex) as Hget.
  assert (Hin : key ∈ CacheManager.keys c) by (apply elem_of_keys; eauto).
  split; [exact Hget|].
  split; [unfold CacheManager.exists_; by rewrite Hget|].
  split.
  { unfold CacheManager.touch. rewrite Hk.
    apply Qle_bool_iff in Hex. by rewrite Hex. }
  split; [unfold CacheManager.delete_; by rewrite Hk|].
  split; [exists (CacheManager.keys c); done|].
  intros p m Hp Hm. unfold CacheManager.get_keys. rewrite Hp.
  eexists. split; [reflexivity|].
  apply list_elem_of_filter. split; [by rewrite Hm | exact Hin].
Qed.

(** An entry that expired at time 10, looked at at time 20. *)
Lemma expired_entry_operations_witness :
  let c : gmap string CacheManager.CacheEntry :=
    {[ "account:7" := CacheManager.mkEntry (VInt 1) 10 ]} in
  CacheManager.get "account:7" 20 c = (VNone, delete "account:7" c)
  /\ CacheManager.delete_ "account:7" c = (true, delete "account:7" c)
  /\ (exists ks, CacheManager.get_keys Re.compile (Some "account:.*") c = Ok ks
                 /\ "account:7" ∈ ks).
Proof.
  intros c.
  destruct (expired_entry_operations Re.compile "account:7"
              (CacheManager.mkEntry (VInt 1) 10) 20 60 c)
    as (Hget & _ & _ & Hdel & _ & Hkeys).
  - reflexivity.
  - vm_compute. discriminate.
  - split; [exact Hget|]. split; [exact Hdel|].
    eapply Hkeys; reflexivity.
Defined.

(** C3 as stated fails on [delete] and on [get_keys]: with the entry of
    "account:7" expired at time 10 and still stored at time 20, [delete]
    answers [True] and [get_keys] lists the key. *)
Lemma expired_entry_operations_counterexample :
  let c : gmap string CacheManager.CacheEntry :=
    {[ "account:7" := CacheManager.mkEntry (VInt 1) 10 ]} in
  c !! "account:7" = Some (CacheManager.mkEntry (VInt 1) 10)
  /\ (10 <= 20)%Q
  /\ (CacheManager.delete_ "account:7" c).1 = true
  /\ CacheManager.get_keys Re.compile None c = Ok ["account:7"].
Proof. repeat split. vm_compute. discriminate. Qed.

Section ClearPattern.

Import CacheManager.

Variable re_compile : string -> option (string -> bool).

Lemma matching_keys_count (regex_match : string -> bool) (c : cache) :
  length (filter (fun k => Is_true (regex_match k)) (keys c))
  = size (filter (fun kv : string * CacheEntry => Is_true (regex_match kv.1)) c).
Proof.
  rewrite <- length_map_to_list, <- (length_fmap fst).
  apply Permutation_length, NoDup_Permutation.
  - apply NoDup_filter, NoDup_fst_map_to_list.
  - apply NoDup_fst_map_to_list.
  - intros k. rewrite list_elem_of_filter.
    rewrite (elem_of_keys c k).
    change (k ∈ (map_to_list (filter (fun kv : string * CacheEntry =>
                                        Is_true (regex_match kv.1)) c)).*1)
      with (k ∈ keys (filter (fun kv : string * CacheEntry =>
                                Is_true (regex_match kv.1)) c)).
    rewrite elem_of_keys. split.
    + intros [Hm [e He]]. exists e. apply map_lookup_filter_Some. done.
    + intros [e [He Hm]%map_lookup_filter_Some]. eauto.
Qed.

Lemma lookup_clear_matching (regex_match : string -> bool) (c : cache) (k : string) :
  del_all (filter (fun k => Is_true (regex_match k)) (keys c)) c !! k
  = if regex_match k then None else c !! k.
Proof.
  rewrite lookup_del_all.
  destruct (decide _) as [Hin|Hnin].
  - apply list_elem_of_filter in Hin as [Hm _].
    destruct (regex_match k); [reflexivity | contradiction].
  - destruct (regex_match k) eqn:Hm; [|reflexivity].
    destruct (c !! k) as [e|] eqn:Hk; [|reflexivity].
    exfalso. apply Hnin. apply list_elem_of_filter. split; [by rewrite Hm|].
    apply elem_of_keys. eauto.
Qed.

(** C9.  [clear(pattern)] compiles the pattern first.  If it compiles,
    the call removes exactly the keys the pattern matches and returns
    how many there were; every other entry is left as it was.  If it
    does not compile, the call raises and the cache is as before. *)
Theorem clear_with_pattern (p : string) (c : cache) :
  match re_compile p with
  | Some regex_match =>
      exists c',
        clear re_compile (Some p) c
        = (Ok (size (filter (fun kv : string * CacheEntry =>
                               Is_true (regex_match kv.1)) c)), c')
        /\ (forall k, c' !! k = if regex_match k then None else c !! k)
        /\ size c' = (size c - size (filter (fun kv : string * CacheEntry =>
                                               Is_true (regex_match kv.1)) c))%nat
  | None => clear re_compile (Some p) c = (Raised ReError, c)
  end.
Proof.
  unfold clear. destruct (re_compile p) as [regex_match|]; [|reflexivity].
  eexists. split; [|split].
  - rewrite matching_keys_count. reflexivity.
  - intros k. apply lookup_clear_matching.
  - set (P := fun kv : string * CacheEntry => Is_true (regex_match kv.1)).
    assert (Hc : del_all (filter (fun k => Is_true (regex_match k)) (keys c)) c
                 = filter (fun kv => ~ P kv) c).
    { apply map_eq. intros k. rewrite lookup_clear_matching.
      rewrite map_lookup_filter. unfold P. simpl.
      destruct (regex_match k) eqn:Hm; destruct (c !! k) as [e|]; simpl;
        try reflexivity.
      all: case_guard as Hg; simpl in Hg; rewrite Hm in Hg; simpl in Hg;
        try reflexivity; tauto. }
    rewrite Hc.
    rewrite <- (map_filter_union_complement P c) at 2.
    rewrite map_size_disj_union by apply map_disjoint_filter_complement.
    lia.
Qed.

End ClearPattern.

(** Three keys under the pattern "a:.*". *)
Lemma clear_with_pattern_witness :
  let c := CacheManager.set "a:1" (VInt 1) 300 0
             (CacheManager.set "a:2" (VInt 2) 300 0
                (CacheManager.set "b:1" (VInt 3) 300 0 ∅)) in
  exists c',
    CacheManager.clear Re.compile (Some "a:.*") c = (Ok 2%nat, c')
    /\ c' !! "a:1" = None /\ c' !! "a:2" = None /\ c' !! "b:1" = c !! "b:1".
Proof.
  intros c.
  pose proof (clear_with_pattern Re.compile "a:.*" c) as H.
  destruct (Re.compile "a:.*") as [regex_match|] eqn:E; [|discriminate].
  injection E as <-.
  destruct H as (c' & Hclear & Hlookup & _).
  exists c'. split; [rewrite Hclear; reflexivity|].
  split; [exact (Hlookup "a:1")|].
  split; [exact (Hlookup "a:2") | exact (Hlookup "b:1")].
Defined.

(** The same keys once more, two patterns that do not compile, and a call
    without a pattern. *)
Example three_keys_example :
  let c := CacheManager.set "a:1" (VInt 1) 300 0
             (CacheManager.set "a:2" (VInt 2) 300 0
                (CacheManager.set "b:1" (VInt 3) 300 0 ∅)) in
  (CacheManager.clear Re.compile (Some "a:.*") c).1 = Ok 2%nat
  /\ CacheManager.keys (CacheManager.clear Re.compile (Some "a:.*") c).2 = ["b:1"]
  /\ CacheManager.clear Re.compile (Some "*") c = (Raised ReError, c)
  /\ CacheManager.clear Re.compile (Some "a:(") c = (Raised ReError, c)
  /\ (CacheManager.clear Re.compile None c).1 = Ok 3%nat.
Proof. repeat split. Qed.

(** ** Batch fan-out *)

Section BatchFacts.

Import OpenTextService.

Variable batch_size : Z.
Variable A : Type.
Variable fetch_one : string -> M (option A).

Lemma gather_app (ts1 ts2 : list (M (option A))) (w : World) :
  gather A (ts1 ++ ts2) w =
    match gather A ts1 w with
    | (Ok r1, w1) =>
        match gather A ts2 w1 with
        | (Ok r2, w2) => (Ok (r1 ++ r2), w2)
        | (Raised e, w2) => (Raised e, w2)
        | (Diverged, w2) => (Diverged, w2)
        end
    | (Raised e, w1) => (Raised e, w1)
    | (Diverged, w1) => (Diverged, w1)
    end.
Proof.
  revert w. induction ts1 as [|t ts1 IH]; intros w; simpl.
  - unfold ret. by destruct (gather A ts2 w) as [[r2| |] w2].
  - destruct (t w) as [[r| |] w1]; try reflexivity.
    all: unfold bind, ret; rewrite IH;
      destruct (gather A ts1 w1) as [[r1| |] w2]; try reflexivity;
      by destruct (gather A ts2 w2) as [[r2| |] w3].
Qed.

(** [gather] with [return_exceptions=True] never raises. *)
Lemma gather_no_raise (ts : list (M (option A))) (w : World) (e : exn) (w' : World) :
  gather A ts w <> (Raised e, w').
Proof.
  revert w. induction ts as [|t ts IH]; intros w; simpl; [discriminate|].
  destruct (t w) as [[r| |] w1]; try discriminate.
  all: unfold bind, ret; specialize (IH w1);
    destruct (gather A ts w1) as [[rs| |] w2]; congruence.
Qed.

Lemma gather_attempted (ids : list string) (w : World) (rs : list (gathered A))
    (w' : World) :
  attempted A fetch_one ids w rs w' <-> gather A (fetch_one <$> ids) w = (Ok rs, w').
Proof.
  split.
  - induction 1 as [w|x xs w r w1 rs w2 Hx _ IH|x xs w e w1 rs w2 Hx _ IH].
    + reflexivity.
    + rewrite fmap_cons. cbn [gather]. rewrite Hx. unfold bind, ret. by rewrite IH.
    + rewrite fmap_cons. cbn [gather]. rewrite Hx. unfold bind, ret. by rewrite IH.
  - revert w rs. induction ids as [|x xs IH]; intros w rs.
    + simpl. unfold ret. intros [= <- <-]. constructor.
    + rewrite fmap_cons. cbn [gather].
      destruct (fetch_one x w) as [[r| |] w1] eqn:Hx; [| |discriminate].
      all: unfold bind, ret;
        destruct (gather A (fetch_one <$> xs) w1) as [[rs1| |] w2] eqn:Hg;
        try discriminate; intros [= <- <-].
      * eapply attempted_returned; eauto.
      * eapply attempted_raised; eauto.
Qed.

Lemma attempted_length (ids : list string) (w : World) (rs : list (gathered A))
    (w' : World) :
  attempted A fetch_one ids w rs w' -> length rs = length ids.
Proof. induction 1; simpl; congruence. Qed.

(** Either every coroutine returns or raises, or one of them never ends. *)
Lemma gather_cases (ids : list string) (w : World) :
  (exists rs w', attempted A fetch_one ids w rs w')
  \/ (exists pre x post rs w1 w2,
        ids = pre ++ x :: post
        /\ attempted A fetch_one pre w rs w1
        /\ fetch_one x w1 = (Diverged, w2)
        /\ gather A (fetch_one <$> ids) w = (Diverged, w2)).
Proof.
  revert w. induction ids as [|x xs IH]; intros w.
  - left. exists [], w. constructor.
  - destruct (fetch_one x w) as [[r| |] w1] eqn:Hx.
    + destruct (IH w1) as [(rs & w' & Hatt)|(pre & y & post & rs & w2 & w3 & -> & Hatt & Hy & Hg)].
      * left. exists (Returned A r :: rs), w'. eapply attempted_returned; eauto.
      * right. exists (x :: pre), y, post, (Returned A r :: rs), w2, w3.
        split; [reflexivity|]. split; [eapply attempted_returned; eauto|].
        split; [exact Hy|]. rewrite fmap_cons. cbn [gather]. rewrite Hx. unfold bind. by rewrite Hg.
    + destruct (IH w1) as [(rs & w' & Hatt)|(pre & y & post & rs & w2 & w3 & -> & Hatt & Hy & Hg)].
      * left. exists (Exc A e :: rs), w'. eapply attempted_raised; eauto.
      * right. exists (x :: pre), y, post, (Exc A e :: rs), w2, w3.
        split; [reflexivity|]. split; [eapply attempted_raised; eauto|].
        split; [exact Hy|]. rewrite fmap_cons. cbn [gather]. rewrite Hx. unfold bind. by rewrite Hg.
    + right. exists [], x, xs, [], w, w1.
      split; [reflexivity|]. split; [constructor|].
      split; [exact Hx|]. rewrite fmap_cons. cbn [gather]. by rewrite Hx.
Qed.

(** The slices [ids[i:i+n]] for [i = j*n, (j+1)*n, ...] tile the list:
    [m] rounds of the loop gather the next [m*n] items. *)
Lemma batch_loop_rounds (n m j : nat) (ids : list string) (acc : list A) (w : World) :
  Z.to_nat batch_size = n ->
  batch_loop batch_size A fetch_one ((fun k => (k * n)%nat) <$> seq j m) ids acc w =
    match gather A (fetch_one <$> take (m * n) (drop (j * n) ids)) w with
    | (Ok rs, w') => (Ok (acc ++ omap (is_record A) rs), w')
    | (Raised e, w') => (Raised e, w')
    | (Diverged, w') => (Diverged, w')
    end.
Proof.
  intros Hn. revert j acc w. induction m as [|m IH]; intros j acc w.
  - simpl. unfold ret. by rewrite app_nil_r.
  - change (seq j (S m)) with (j :: seq (S j) m).
    rewrite fmap_cons.
    change (batch_loop batch_size A fetch_one
              ((j * n)%nat :: ((fun k => (k * n)%nat) <$> seq (S j) m)) ids acc w)
      with (bind (gather A (fetch_one <$> take (Z.to_nat batch_size) (drop (j * n) ids)))
              (fun batch_results =>
                 batch_loop batch_size A fetch_one
                   ((fun k => (k * n)%nat) <$> seq (S j) m) ids
                   (acc ++ omap (is_record A) batch_results)) w).
    rewrite Hn.
    replace (S m * n)%nat with (n + m * n)%nat by lia.
    rewrite <- (take_take_drop (drop (j * n) ids) n (m * n)).
    rewrite drop_drop. replace (j * n + n)%nat with (S j * n)%nat by lia.
    rewrite fmap_app, gather_app. unfold bind.
    destruct (gather A (fetch_one <$> take n (drop (j * n) ids)) w)
      as [[r1| |] w1]; try reflexivity.
    rewrite IH.
    destruct (gather A (fetch_one <$> take (m * n) (drop (S j * n) ids)) w1)
      as [[r2| |] w2]; try reflexivity.
    by rewrite omap_app, app_assoc.
Qed.

(** With a positive batch size the chunked loop is one pass over all the
    items, keeping the records. *)
Lemma fetch_batch_gather (ids : list string) (w : World) :
  0 < batch_size ->
  fetch_batch batch_size A fetch_one ids w =
    match gather A (fetch_one <$> ids) w with
    | (Ok rs, w') => (Ok (omap (is_record A) rs), w')
    | (Raised e, w') => (Raised e, w')
    | (Diverged, w') => (Diverged, w')
    end.
Proof.
  intros Hbs. unfold fetch_batch, bind, lift, py_range.
  destruct (batch_size =? 0) eqn:E0; [apply Z.eqb_eq in E0; lia|].
  destruct (batch_size <? 0) eqn:E1; [apply Z.ltb_lt in E1; lia|].
  set (n := Z.to_nat batch_size).
  rewrite (batch_loop_rounds n _ 0 ids [] w eq_refl).
  simpl (0 * n)%nat. rewrite drop_0.
  rewrite take_ge; [reflexivity|].
  assert (Hn : (0 < n)%nat) by (unfold n; lia).
  pose proof (Nat.div_mod_eq (length ids + n - 1) n) as Hd.
  pose proof (Nat.mod_upper_bound (length ids + n - 1) n ltac:(lia)) as Hm.
  nia.
Qed.

End BatchFacts.

(** C6.  With a positive batch size, a batch call runs the coroutine of
    every item, in input order, and records what each one produced: an
    item that raises or returns [None] stops neither its siblings nor the
    later chunks, and the call itself returns normally.  The only way for
    the call not to return is an item whose coroutine never ends. *)
Theorem batch_failure_isolation (batch_size : Z) (A : Type)
    (fetch_one : string -> OpenTextService.M (option A))
    (ids : list string) (w : OpenTextService.World) :
  0 < batch_size ->
  (exists rs w',
      OpenTextService.attempted A fetch_one ids w rs w'
      /\ length rs = length ids
      /\ OpenTextService.fetch_batch batch_size A fetch_one ids w
         = (Ok (omap (OpenTextService.is_record A) rs), w'))
  \/ (exists pre x post rs w1 w2,
        ids = pre ++ x :: post
        /\ OpenTextService.attempted A fetch_one pre w rs w1
        /\ fetch_one x w1 = (Diverged, w2)
        /\ OpenTextService.fetch_batch batch_size A fetch_one ids w = (Diverged, w2)).
Proof.
  intros Hbs. rewrite (fetch_batch_gather batch_size A fetch_one ids w Hbs).
  destruct (gather_cases A fetch_one ids w)
    as [(rs & w' & Hatt)|(pre & x & post & rs & w1 & w2 & Hids & Hatt & Hx & Hg)].
  - left. exists rs, w'. split; [exact Hatt|].
    split; [exact (attempted_length A fetch_one ids w rs w' Hatt)|].
    apply gather_attempted in Hatt. by rewrite Hatt.
  - right. exists pre, x, post, rs, w1, w2. by rewrite Hg.
Qed.

(** Ten accounts in chunks of three, the fourth one answered with 404. *)
Lemma batch_failure_isolation_witness :
  (exists rs w',
      OpenTextService.attempted _ Scenario.get_account Scenario.account_ids
        Scenario.world0 rs w'
      /\ length rs = length Scenario.account_ids
      /\ Scenario.get_accounts_batch 3 Scenario.account_ids Scenario.world0
         = (Ok (omap (OpenTextService.is_record _) rs), w'))
  \/ (exists pre x post rs w1 w2,
        Scenario.account_ids = pre ++ x :: post
        /\ OpenTextService.attempted _ Scenario.get_account pre Scenario.world0 rs w1
        /\ Scenario.get_account x w1 = (Diverged, w2)
        /\ Scenario.get_accounts_batch 3 Scenario.account_ids Scenario.world0
           = (Diverged, w2)).
Proof.
  apply (batch_failure_isolation 3 _ Scenario.get_account). lia.
Defined.

(** In that run all ten upstream calls are made, the one for "a4"
    included, and the nine other accounts come back. *)
Example ten_accounts_example :
  let r := Scenario.get_accounts_batch 3 Scenario.account_ids Scenario.world0 in
  OpenTextService.http_log r.2
  = (fun id => ("GET", "https://api/accounts/" +:+ id)) <$> Scenario.account_ids
  /\ (exists accounts, r.1 = Ok accounts /\ length accounts = 9%nat).
Proof. split; [vm_compute; reflexivity|]. eexists. split; vm_compute; reflexivity. Qed.

(** C1.  With a positive batch size, when the per-item coroutines produce
    the outcomes [rs], the batch call returns the records among them, in
    input order, and nothing for an item that returned [None] or raised:
    the result has one entry per successful item, so it is never longer
    than the input and is as long as the input exactly when every item
    succeeded. *)
Theorem batch_returns_records (batch_size : Z) (A : Type)
    (fetch_one : string -> OpenTextService.M (option A))
    (ids : list string) (w w' : OpenTextService.World)
    (rs : list (OpenTextService.gathered A)) :
  0 < batch_size ->
  OpenTextService.attempted A fetch_one ids w rs w' ->
  OpenTextService.fetch_batch batch_size A fetch_one ids w
  = (Ok (omap (OpenTextService.is_record A) rs), w')
  /\ length (omap (OpenTextService.is_record A) rs)
     = length (filter (fun g => Is_true (OpenTextService.succeeded A g)) rs)
  /\ (length (omap (OpenTextService.is_record A) rs) <= length ids)%nat
  /\ (length (omap (OpenTextService.is_record A) rs) = length ids
      <-> Forall (fun g => Is_true (OpenTextService.succeeded A g)) rs).
Proof.
  intros Hbs Hatt.
  pose proof (attempted_length A fetch_one ids w rs w' Hatt) as Hlen.
  split.
  { rewrite (fetch_batch_gather batch_size A fetch_one ids w Hbs).
    apply gather_attempted in Hatt. by rewrite Hatt. }
  rewrite <- Hlen. clear Hatt Hlen.
  assert (Hcount : length (omap (OpenTextService.is_record A) rs)
                   = length (filter (fun g => Is_true (OpenTextService.succeeded A g)) rs)).
  { induction rs as [|g rs IH]; [reflexivity|].
    rewrite filter_cons.
    change (omap (OpenTextService.is_record A) (g :: rs))
      with (match OpenTextService.is_record A g with
            | Some a => a :: omap (OpenTextService.is_record A) rs
            | None => omap (OpenTextService.is_record A) rs
            end).
    destruct (decide (Is_true (OpenTextService.succeeded A g))) as [Hg|Hg];
      unfold OpenTextService.succeeded in Hg;
      destruct (OpenTextService.is_record A g); simpl in Hg; try tauto.
    simpl. by rewrite IH. }
  split; [exact Hcount|].
  split; [rewrite Hcount; apply length_filter|].
  rewrite Hcount. clear Hcount. split.
  - intros Hl. induction rs as [|g rs IH]; [constructor|].
    rewrite filter_cons in Hl.
    destruct (decide (Is_true (OpenTextService.succeeded A g))) as [Hg|Hg].
    + constructor; [exact Hg|]. apply IH. cbn [length] in Hl. lia.
    + pose proof (length_filter (fun g => Is_true (OpenTextService.succeeded A g)) rs).
      cbn [length] in Hl. lia.
  - intros Hall. induction Hall as [|g rs Hg _ IH]; [reflexivity|].
    rewrite filter_cons, decide_True by exact Hg. simpl. by rewrite IH.
Qed.

(** The ten accounts again: nine records for ten items. *)
Lemma batch_returns_records_witness :
  exists rs w',
    OpenTextService.attempted _ Scenario.get_account Scenario.account_ids
      Scenario.world0 rs w'
    /\ Scenario.get_accounts_batch 3 Scenario.account_ids Scenario.world0
       = (Ok (omap (OpenTextService.is_record _) rs), w')
    /\ (length (omap (OpenTextService.is_record _) rs) <= 10)%nat.
Proof.
  assert (Hg : exists rs w',
             OpenTextService.gather _ (Scenario.get_account <$> Scenario.account_ids)
               Scenario.world0 = (Ok rs, w')).
  { vm_compute. eauto. }
  destruct Hg as (rs & w' & Hg). apply gather_attempted in Hg.
  exists rs, w'. split; [exact Hg|].
  destruct (batch_returns_records 3 _ Scenario.get_account Scenario.account_ids
              Scenario.world0 w' rs ltac:(lia) Hg) as (Hret & _ & Hle & _).
  split; [exact Hret | exact Hle].
Defined.

(** C1 as stated fails: for the ten accounts of which "a4" is answered
    with 404, in chunks of three, the call returns nine records and no
    entry at all for "a4". *)
Lemma batch_returns_records_counterexample :
  exists accounts w',
    Scenario.get_accounts_batch 3 Scenario.account_ids Scenario.world0
    = (Ok accounts, w')
    /\ length Scenario.account_ids = 10%nat
    /\ length accounts = 9%nat
    /\ OpenTextAccount.account_id <$> accounts
       = (fun id => VStr ("https://api/accounts/" +:+ id))
           <$> ["a1"; "a2"; "a3"; "a5"; "a6"; "a7"; "a8"; "a9"; "a10"].
Proof.
  eexists. eexists. split; [vm_compute; reflexivity|].
  repeat split.
Qed.

(** ** Falsy values in the cache *)

Section FalsyCachedValues.

Import OpenTextService.

Variable api_base_url : string.
Variable http : string -> string -> list (string * string) -> http_result.
Variable acquire_fuel : nat.

Lemma get_live (key : string) (entry : CacheManager.CacheEntry) (now : Q)
    (c : gmap string CacheManager.CacheEntry) :
  c !! key = Some entry -> (now < CacheManager.expires_at entry)%Q ->
  CacheManager.get key now c = (CacheManager.value entry, c).
Proof.
  intros Hk Hlive. unfold CacheManager.get. rewrite Hk.
  apply Qle_bool_false in Hlive. by rewrite Hlive.
Qed.

(** With a token in the bucket [_make_request]'s upstream path makes
    exactly one call and answers from the upstream's response. *)
Lemma request_upstream_calls (method endpoint : string) (cache_key : option string)
    (cache_ttl : Z) (w : World) :
  acquire_fuel <> 0%nat ->
  1 <= RateLimiter.current_tokens (rate_limiter w) ->
  let r := request_upstream api_base_url http acquire_fuel method endpoint
             cache_key cache_ttl w in
  http_log r.2 = http_log w ++ [(method, api_base_url +:+ endpoint)]
  /\ r.1 = match http method (api_base_url +:+ endpoint) (http_log w) with
           | HttpResponse status body =>
               if 400 <=? status then Raised OpenTextAPIError else Ok body
           | _ => Raised OpenTextAPIError
           end.
Proof.
  intros Hfuel Htok.
  unfold request_upstream, bind, limiter_acquire.
  destruct acquire_fuel as [|fuel]; [done|]. simpl RateLimiter.acquire.
  destruct (RateLimiter.current_tokens (rate_limiter w) <? 1) eqn:E;
    [apply Z.ltb_lt in E; lia|].
  unfold wrap_api, session_request. simpl.
  destruct (http method (api_base_url +:+ endpoint) (http_log w))
    as [status body| |]; simpl; try done.
  destruct (400 <=? status); simpl; [done|].
  destruct (cacheable method cache_key); simpl; done.
Qed.

(** C10.  A live entry whose value is falsy is read by [get] as it is
    stored; when the value is [None] that is what [get] returns for a
    missing key too, and [exists] answers [False].  A GET request with
    that cache key does not serve the entry: it takes the upstream path,
    and with a token in the bucket makes one upstream call and answers
    from the upstream's response. *)
Theorem falsy_cached_value_is_a_miss (endpoint key : string) (cache_ttl : Z)
    (entry : CacheManager.CacheEntry) (w : World) :
  key <> "" ->
  cache_manager w !! key = Some entry ->
  (clock w < CacheManager.expires_at entry)%Q ->
  truthy (CacheManager.value entry) = false ->
  CacheManager.get key (clock w) (cache_manager w)
  = (CacheManager.value entry, cache_manager w)
  /\ (CacheManager.value entry = VNone ->
      (CacheManager.get key (clock w) (cache_manager w)).1
      = (CacheManager.get key (clock w) (delete key (cache_manager w))).1
      /\ CacheManager.exists_ key (clock w) (cache_manager w)
         = (false, cache_manager w))
  /\ _make_request api_base_url http acquire_fuel "GET" endpoint (Some key) cache_ttl w
     = request_upstream api_base_url http acquire_fuel "GET" endpoint (Some key)
         cache_ttl w
  /\ (acquire_fuel <> 0%nat ->
      1 <= RateLimiter.current_tokens (rate_limiter w) ->
      let r := _make_request api_base_url http acquire_fuel "GET" endpoint
                 (Some key) cache_ttl w in
      http_log r.2 = http_log w ++ [("GET", api_base_url +:+ endpoint)]
      /\ r.1 = match http "GET" (api_base_url +:+ endpoint) (http_log w) with
               | HttpResponse status body =>
                   if 400 <=? status then Raised OpenTextAPIError else Ok body
               | _ => Raised OpenTextAPIError
               end).
Proof.
  intros Hkey Hk Hlive Hfalsy.
  pose proof (get_live key entry (clock w) (cache_manager w) Hk Hlive) as Hget.
  assert (Hreq : _make_request api_base_url http acquire_fuel "GET" endpoint
                   (Some key) cache_ttl w
                 = request_upstream api_base_url http acquire_fuel "GET" endpoint
                     (Some key) cache_ttl w).
  { unfold _make_request, cacheable.
    apply String.eqb_neq in Hkey. rewrite Hkey. simpl.
    unfold bind, cache_get. rewrite Hget, Hfalsy.
    by destruct w. }
  split; [exact Hget|]. split; [|split; [exact Hreq|]].
  - intros Hnone. split.
    + rewrite Hget. simpl. unfold CacheManager.get.
      by rewrite lookup_delete_eq.
    + unfold CacheManager.exists_. by rewrite Hget, Hnone.
  - intros Hfuel Htok. rewrite Hreq.
    apply request_upstream_calls; assumption.
Qed.

End FalsyCachedValues.

(** An empty document cached for "account:a1" is not served: the request
    goes upstream and answers with the upstream's document. *)
Lemma falsy_cached_value_is_a_miss_witness :
  let w := OpenTextService.mkWorld
             {[ "account:a1" := CacheManager.mkEntry (VDict []) 600 ]}
             (RateLimiter.init 10 None) 0 [] in
  let r := OpenTextService._make_request Scenario.api_base_url Scenario.http 3
             "GET" "/accounts/a1" (Some "account:a1") 600 w in
  CacheManager.get "account:a1" 0 (OpenTextService.cache_manager w)
  = (VDict [], OpenTextService.cache_manager w)
  /\ OpenTextService.http_log r.2 = [("GET", "https://api/accounts/a1")]
  /\ r.1 = Ok (Scenario.account_document "https://api/accounts/a1").
Proof.
  intros w r.
  destruct (falsy_cached_value_is_a_miss Scenario.api_base_url Scenario.http 3
              "/accounts/a1" "account:a1" 600
              (CacheManager.mkEntry (VDict []) 600) w)
    as (Hget & _ & _ & Hcall).
  - discriminate.
  - reflexivity.
  - reflexivity.
  - reflexivity.
  - split; [exact Hget|].
    destruct Hcall as [Hlog Hres]; [discriminate | vm_compute; discriminate |].
    split; [exact Hlog | exact Hres].
Defined.

(** A cached [None] and a missing key look the same to [get] and
    [exists]. *)
Example cached_none_example :
  let c : gmap string CacheManager.CacheEntry :=
    {[ "porting:555" := CacheManager.mkEntry VNone 600 ]} in
  (CacheManager.get "porting:555" 0 c).1 = (CacheManager.get "porting:555" 0 ∅).1
  /\ (CacheManager.exists_ "porting:555" 0 c).1 = false.
Proof. split; reflexivity. Qed.


(** * Further properties of the rate limiter *)

Section LimiterWaits.

Import RateLimiter.

Lemma refill_last_refill (now : Q) (s : t) :
  exists l', last_refill (_refill_tokens now s) = Some l'
             /\ (forall l, last_refill s = Some l -> (l <= now)%Q ->
                            (l <= l')%Q /\ (l' <= now)%Q)
             /\ (last_refill s = None -> l' = now).
Proof.
  unfold _refill_tokens. destruct (last_refill s) as [l|] eqn:El.
  - destruct (Qle_bool 1 _); simpl.
    + exists now. split; [reflexivity|]. split; [|discriminate].
      intros l0 [= <-] Hle. split; [exact Hle | apply Qle_refl].
    + exists l. split; [exact El|]. split; [|discriminate].
      intros l0 [= <-] Hle. split; [apply Qle_refl | exact Hle].
  - exists now. simpl. split; [reflexivity|]. split; [discriminate | reflexivity].
Qed.

Lemma refill_keeps_config (now : Q) (s : t) :
  requests_per_second (_refill_tokens now s) = requests_per_second s
  /\ max_tokens (_refill_tokens now s) = max_tokens s.
Proof.
  unfold _refill_tokens. destruct (last_refill s); [|done].
  destruct (Qle_bool 1 _); done.
Qed.

(** A refill never leaves fewer tokens than a request within the capacity
    that was already covered. *)
Lemma refill_keeps_covered (n : Z) (now : Q) (s : t) :
  n <= max_tokens s -> n <= current_tokens s ->
  n <= current_tokens (_refill_tokens now s).
Proof.
  intros Hcap Hn. unfold _refill_tokens.
  destruct (last_refill s) as [l|]; simpl; [|exact Hn].
  destruct (Qle_bool 1 ((now - l) * requests_per_second s)) eqn:E; simpl; [|exact Hn].
  apply Qle_bool_iff in E.
  assert (0 <= py_int ((now - l) * requests_per_second s)).
  { etrans; [|apply py_int_ge; [|exact E]]; lia. }
  lia.
Qed.

(** X1.  [get_wait_time] against a [try_acquire] made at the same
    instant.  It takes no token (it leaves the state of a refused
    [try_acquire]) and returns 0 exactly when [try_acquire] would be
    granted.  When [try_acquire] would be refused, the sign of the wait is
    that of the rate, and there is no wait to return for a rate of zero:
    a positive rate gives a positive wait, a negative rate a negative
    wait, and a zero rate raises [ZeroDivisionError]. *)
Theorem wait_time_follows_try_acquire (n : Z) (now : Q) (s : t) :
  (get_wait_time n now s).2 = _refill_tokens now s
  /\ ((try_acquire n now s).1 = false ->
      (get_wait_time n now s).2 = (try_acquire n now s).2)
  /\ ((get_wait_time n now s).1 = Ok 0%Q <-> (try_acquire n now s).1 = true)
  /\ ((try_acquire n now s).1 = false ->
      ((0 < requests_per_second s)%Q ->
       exists wait, (get_wait_time n now s).1 = Ok wait /\ (0 < wait)%Q)
      /\ ((requests_per_second s < 0)%Q ->
          exists wait, (get_wait_time n now s).1 = Ok wait /\ (wait < 0)%Q)
      /\ ((requests_per_second s == 0)%Q ->
          (get_wait_time n now s).1 = Raised ZeroDivisionError)).
Proof.
  destruct (refill_keeps_config now s) as [Hrs _].
  unfold get_wait_time, try_acquire.
  set (s1 := _refill_tokens now s) in *.
  destruct (n <=? current_tokens s1) eqn:E; cbn [fst snd].
  - split; [reflexivity|]. split; [discriminate|].
    split; [done | discriminate].
  - apply Z.leb_gt in E.
    assert (Hneeded : (0 < inject_Z (n - current_tokens s1))%Q).
    { change 0%Q with (inject_Z 0). rewrite <- Zlt_Qlt. lia. }
    rewrite Hrs.
    destruct (Qeq_bool (requests_per_second s) 0) eqn:E0; cbn [fst snd].
    + apply Qeq_bool_iff in E0.
      split; [reflexivity|]. split; [reflexivity|].
      split; [split; discriminate|]. intros _.
      split; [intros Hr; rewrite E0 in Hr; discriminate|].
      split; [intros Hr; rewrite E0 in Hr; discriminate | reflexivity].
    + assert (Hne : ~ (requests_per_second s == 0)%Q).
      { intros H0. apply Qeq_bool_iff in H0. congruence. }
      split; [reflexivity|]. split; [reflexivity|].
      split.
      { split; [|discriminate]. intros Hw. exfalso.
        apply (f_equal (fun o => match o with Ok w => w | _ => 0%Q end)) in Hw.
        cbv beta iota in Hw.
        assert (Hq : (inject_Z (n - current_tokens s1) / requests_per_second s == 0)%Q)
          by (rewrite Hw; reflexivity).
        assert (Hback : (inject_Z (n - current_tokens s1)
                         == inject_Z (n - current_tokens s1) / requests_per_second s
                            * requests_per_second s)%Q) by (field; exact Hne).
        rewrite Hq, Qmult_0_l in Hback. rewrite Hback in Hneeded. discriminate. }
      intros _. split; [|split].
      * intros Hr. eexists. split; [reflexivity|].
        apply wait_time_pos; [lia | exact Hr].
      * intros Hr. eexists. split; [reflexivity|].
        assert (Hpos : (0 < inject_Z (n - current_tokens s1) / - requests_per_second s)%Q).
        { apply wait_time_pos; [lia|]. lra. }
        assert (Hopp : (inject_Z (n - current_tokens s1) / - requests_per_second s
                        == - (inject_Z (n - current_tokens s1) / requests_per_second s))%Q)
          by (field; exact Hne).
        rewrite Hopp in Hpos. lra.
      * intros Hr. contradiction.
Qed.

(** Two tokens short at 4 tokens/s, at -4 tokens/s and at a rate of zero. *)
Lemma wait_time_follows_try_acquire_witness :
  (get_wait_time 3 10 (mk 4 5 1 (Some 10%Q))).1 = Ok (2 / 4)%Q
  /\ (exists wait, (get_wait_time 3 10 (mk (-4) 5 1 (Some 10%Q))).1 = Ok wait
                   /\ (wait < 0)%Q)
  /\ (get_wait_time 3 10 (mk 0 5 1 (Some 10%Q))).1 = Raised ZeroDivisionError.
Proof.
  split; [reflexivity|]. split.
  - destruct (wait_time_follows_try_acquire 3 10 (mk (-4) 5 1 (Some 10%Q)))
      as (_ & _ & _ & H).
    destruct (H eq_refl) as (_ & Hneg & _). apply Hneg. reflexivity.
  - destruct (wait_time_follows_try_acquire 3 10 (mk 0 5 1 (Some 10%Q)))
      as (_ & _ & _ & H).
    destruct (H eq_refl) as (_ & _ & Hzero). apply Hzero. reflexivity.
Defined.

End LimiterWaits.

Section LimiterBounds.

Import RateLimiter.

(** What a refill adds is at most what the elapsed time earned. *)
Lemma refill_potential (now T l : Q) (s : t) :
  (0 <= requests_per_second s)%Q ->
  last_refill s = Some l -> (l <= now)%Q -> (now <= T)%Q ->
  exists l', last_refill (_refill_tokens now s) = Some l'
    /\ (l' <= now)%Q
    /\ (inject_Z (current_tokens (_refill_tokens now s))
        + requests_per_second s * (T - l')
        <= inject_Z (current_tokens s) + requests_per_second s * (T - l))%Q.
Proof.
  intros Hr Hl Hln HnT. unfold _refill_tokens. rewrite Hl.
  destruct (Qle_bool 1 ((now - l) * requests_per_second s)) eqn:E; simpl.
  - exists now. split; [reflexivity|]. split; [apply Qle_refl|].
    apply Qle_bool_iff in E.
    set (x := ((now - l) * requests_per_second s)%Q) in *.
    assert (Hx0 : (0 <= x)%Q) by (eapply Qle_trans; [|exact E]; discriminate).
    assert (Hfl : (inject_Z (py_int x) <= x)%Q).
    { rewrite (py_int_floor x Hx0). apply Qfloor_le. }
    assert (Hmin : (inject_Z (Z.min (max_tokens s) (current_tokens s + py_int x))
                    <= inject_Z (current_tokens s) + inject_Z (py_int x))%Q).
    { rewrite <- inject_Z_plus. rewrite <- Zle_Qle. lia. }
    assert (Hsplit : (requests_per_second s * (T - l)
                      == x + requests_per_second s * (T - now))%Q)
      by (unfold x; ring).
    rewrite Hsplit.
    eapply Qle_trans; [apply Qplus_le_l; exact Hmin|].
    rewrite <- !Qplus_assoc. apply Qplus_le_r. apply Qplus_le_l. exact Hfl.
  - exists l. split; [exact Hl|]. split; [exact Hln | apply Qle_refl].
Qed.

Lemma clock_ordered_from (l1 l2 : Q) (calls : list (Z * Q)) :
  (l1 <= l2)%Q -> clock_ordered l2 calls -> clock_ordered l1 calls.
Proof.
  destruct calls as [|[n now] rest]; simpl; [done|].
  intros Hle [Hnow Hrest]. split; [|exact Hrest].
  eapply Qle_trans; [exact Hle | exact Hnow].
Qed.

Lemma try_acquire_all_bound (calls : list (Z * Q)) (T l : Q) (s : t) :
  (0 <= requests_per_second s)%Q ->
  bucket_inv s ->
  last_refill s = Some l ->
  Forall (fun c => 0 <= c.1 /\ (c.2 <= T)%Q) calls ->
  clock_ordered l calls ->
  (l <= T)%Q ->
  (inject_Z (try_acquire_all calls s).1
   <= inject_Z (current_tokens s) + requests_per_second s * (T - l))%Q.
Proof.
  intros Hr. revert l s Hr.
  induction calls as [|[n now] calls IH]; intros l s Hr Hinv Hl Hcalls Hord HlT.
  - simpl. destruct Hinv as [H0 _].
    rewrite <- (Qplus_0_r 0). apply Qplus_le_compat.
    + change 0%Q with (inject_Z 0). by rewrite <- Zle_Qle.
    + apply Qmult_le_0_compat; [exact Hr|].
      unfold Qminus. rewrite <- (Qplus_opp_r l). apply Qplus_le_l. exact HlT.
  - apply Forall_cons in Hcalls as [[Hn HnowT] Hcalls]. simpl in Hn, HnowT.
    destruct Hord as [Hhd Hord].
    destruct (refill_potential now T l s Hr Hl Hhd HnowT) as (l1 & Hl1 & Hl1now & Hpot).
    destruct (refill_keeps_config now s) as [Hrs Hms].
    pose proof (refill_preserves_inv now s Hinv) as Hinv1.
    pose proof (clock_ordered_from l1 now calls Hl1now Hord) as Hord1.
    cbn [try_acquire_all]. unfold try_acquire.
    set (s1 := _refill_tokens now s) in *.
    assert (Hl1T : (l1 <= T)%Q) by (eapply Qle_trans; [exact Hl1now | exact HnowT]).
    destruct (n <=? current_tokens s1) eqn:E.
    + apply Z.leb_le in E.
      destruct (try_acquire_all calls (consume n s1)) as [total s2] eqn:Erun.
      pose proof (IH l1 (consume n s1)) as IH1. rewrite Erun in IH1.
      simpl in IH1. rewrite Hrs in IH1.
      specialize (IH1 Hr).
      assert (Hinv2 : bucket_inv (consume n s1)).
      { destruct Hinv1. unfold bucket_inv, consume. simpl. lia. }
      specialize (IH1 Hinv2 Hl1 Hcalls Hord1 Hl1T).
      simpl. rewrite inject_Z_plus.
      eapply Qle_trans; [apply Qplus_le_r; exact IH1|].
      unfold Zminus. rewrite inject_Z_plus, inject_Z_opp.
      eapply Qle_trans; [|exact Hpot].
      assert (Heq : (inject_Z n + (inject_Z (current_tokens s1) + - inject_Z n
                                   + requests_per_second s * (T - l1))
                     == inject_Z (current_tokens s1)
                        + requests_per_second s * (T - l1))%Q) by ring.
      rewrite Heq. apply Qle_refl.
    + destruct (try_acquire_all calls s1) as [total s2] eqn:Erun.
      pose proof (IH l1 s1) as IH1. rewrite Erun in IH1. simpl in IH1.
      rewrite Hrs in IH1.
      specialize (IH1 Hr Hinv1 Hl1 Hcalls Hord1 Hl1T).
      simpl. eapply Qle_trans; [exact IH1 | exact Hpot].
Qed.

(** X2.  The token-bucket guarantee.  Over a run of [try_acquire] calls
    with non-negative requests, made at clock readings that never go back,
    start at or after the recorded refill time and end by [T], the tokens
    handed out are at most the tokens held at the start plus what the rate
    earns until [T]; in particular at most the capacity plus
    [rate * (T - last_refill)]. *)
Theorem try_acquire_rate_bound (calls : list (Z * Q)) (T l : Q) (s : t) :
  (0 <= requests_per_second s)%Q ->
  bucket_inv s ->
  last_refill s = Some l ->
  Forall (fun c => 0 <= c.1 /\ (c.2 <= T)%Q) calls ->
  clock_ordered l calls ->
  (l <= T)%Q ->
  (inject_Z (try_acquire_all calls s).1
   <= inject_Z (current_tokens s) + requests_per_second s * (T - l))%Q
  /\ (inject_Z (try_acquire_all calls s).1
      <= inject_Z (max_tokens s) + requests_per_second s * (T - l))%Q.
Proof.
  intros Hr Hinv Hl Hcalls Hord HlT.
  pose proof (try_acquire_all_bound calls T l s Hr Hinv Hl Hcalls Hord HlT) as H.
  split; [exact H|].
  eapply Qle_trans; [exact H|]. apply Qplus_le_l.
  rewrite <- Zle_Qle. apply Hinv.
Qed.

(** A full bucket of 2 at 1 token/s, hammered for three seconds: of the
    eight requests only five are served. *)
Lemma try_acquire_rate_bound_witness :
  let s := mk 1 2 2 (Some 0%Q) in
  let calls := [(1, 0%Q); (1, 0%Q); (1, 0%Q); (1, 1%Q); (1, 1%Q); (1, 2%Q);
                (1, (5 # 2)%Q); (1, 3%Q)] in
  (try_acquire_all calls s).1 = 5
  /\ (inject_Z (try_acquire_all calls s).1 <= inject_Z 2 + 1 * (3 - 0))%Q.
Proof.
  intros s calls. split; [reflexivity|].
  apply (try_acquire_rate_bound calls 3 0 s).
  - discriminate.
  - unfold bucket_inv. simpl. lia.
  - reflexivity.
  - repeat constructor; simpl; try lia; discriminate.
  - simpl. repeat split; discriminate.
  - discriminate.
Defined.

Lemma sleep_ge (d clock : Q) : (clock <= sleep d clock)%Q.
Proof.
  unfold sleep. destruct (Qltb 0 d) eqn:E; [|apply Qle_refl].
  apply Qltb_lt in E. rewrite <- (Qplus_0_r clock) at 1.
  apply Qplus_le_r. apply Qlt_le_weak. exact E.
Qed.

Lemma acquire_last_refill (fuel : nat) (n : Z) (clock l : Q) (s s' : t) (clock' : Q) :
  last_refill s = Some l -> (l <= clock)%Q ->
  acquire fuel n clock s = Ok (s', clock') ->
  exists l', last_refill s' = Some l'
             /\ (l <= l')%Q /\ (l' <= clock')%Q /\ (clock <= clock')%Q.
Proof.
  revert clock l s. induction fuel as [|fuel IH]; intros clock l s Hl Hle Hacq;
    simpl in Hacq; [discriminate|].
  destruct (current_tokens s <? n).
  - destruct (Qeq_bool (requests_per_second s) 0); [discriminate|].
    set (c1 := sleep (inject_Z (n - current_tokens s) / requests_per_second s) clock) in *.
    pose proof (sleep_ge (inject_Z (n - current_tokens s) / requests_per_second s) clock)
      as Hc1. fold c1 in Hc1.
    destruct (refill_last_refill c1 s) as (l1 & Hl1 & Hmono & _).
    destruct (Hmono l Hl (Qle_trans _ _ _ Hle Hc1)) as [Hll1 Hl1c].
    destruct (IH c1 l1 _ Hl1 Hl1c Hacq) as (l' & Hl' & H1 & H2 & H3).
    exists l'. split; [exact Hl'|]. split; [eapply Qle_trans; eauto|].
    split; [exact H2 | eapply Qle_trans; eauto].
  - injection Hacq as <- <-. exists l. simpl.
    split; [exact Hl|]. split; [apply Qle_refl|]. split; [exact Hle | apply Qle_refl].
Qed.

(** X3.  [last_refill] never goes back: an operation called at a clock
    reading not before the recorded refill time leaves a refill time that
    is not earlier than the one it found. *)
Theorem last_refill_monotone (o : op) (s s' : t) (l : Q) :
  last_refill s = Some l ->
  (l <= op_time o)%Q ->
  step o s = Some s' ->
  exists l', last_refill s' = Some l' /\ (l <= l')%Q.
Proof.
  intros Hl Hle. destruct o as [fuel n clock|n now|now]; simpl in *.
  - destruct (acquire fuel n clock s) as [[s1 c1]| |] eqn:E; try discriminate.
    intros [= <-].
    destruct (acquire_last_refill fuel n clock l s s1 c1 Hl Hle E) as (l' & H1 & H2 & _).
    eauto.
  - intros [= <-]. unfold try_acquire.
    destruct (refill_last_refill now s) as (l1 & Hl1 & Hmono & _).
    destruct (Hmono l Hl Hle) as [Hll1 _].
    exists l1. split; [|exact Hll1].
    by destruct (n <=? current_tokens (_refill_tokens now s)).
  - intros [= <-]. exists now. split; [reflexivity | exact Hle].
Qed.

(** An empty bucket refilled at time 1 and asked for two tokens at time 2. *)
Lemma last_refill_monotone_witness :
  exists l', last_refill (try_acquire 2 2 (mk 4 5 0 (Some 1%Q))).2 = Some l'
             /\ (1 <= l')%Q.
Proof.
  apply (last_refill_monotone (TryAcquire 2 2) (mk 4 5 0 (Some 1%Q)) _ 1).
  - reflexivity.
  - discriminate.
  - reflexivity.
Defined.

(** X4.  [get_stats] divides by the capacity: it raises
    [ZeroDivisionError] on a limiter of capacity 0, and otherwise, on a
    bucket with [0 <= tokens <= capacity], reports a utilisation between 0
    and 100 that is 0 exactly when the bucket is full. *)
Theorem get_stats_utilization (s : t) :
  (max_tokens s = 0 -> get_stats s = Raised ZeroDivisionError)
  /\ (max_tokens s <> 0 -> bucket_inv s ->
      exists st, get_stats s = Ok st
                 /\ (0 <= utilization_percent st)%Q
                 /\ (utilization_percent st <= 100)%Q
                 /\ ((utilization_percent st == 0)%Q
                     <-> current_tokens s = max_tokens s)).
Proof.
  unfold get_stats. split.
  - intros ->. reflexivity.
  - intros Hne [H0 H1].
    destruct (max_tokens s =? 0) eqn:E; [apply Z.eqb_eq in E; contradiction|].
    eexists. split; [reflexivity|]. simpl.
    set (a := max_tokens s - current_tokens s).
    set (m := max_tokens s) in *.
    assert (Hm : (0 < inject_Z m)%Q).
    { change 0%Q with (inject_Z 0). rewrite <- Zlt_Qlt. lia. }
    assert (Ha0 : (0 <= inject_Z a)%Q).
    { change 0%Q with (inject_Z 0). rewrite <- Zle_Qle. unfold a. lia. }
    assert (Ham : (inject_Z a <= inject_Z m)%Q).
    { rewrite <- Zle_Qle. unfold a. lia. }
    assert (Hd0 : (0 <= inject_Z a / inject_Z m)%Q).
    { apply Qle_shift_div_l; [exact Hm|]. by rewrite Qmult_0_l. }
    assert (Hd1 : (inject_Z a / inject_Z m <= 1)%Q).
    { apply Qle_shift_div_r; [exact Hm|]. by rewrite Qmult_1_l. }
    split; [apply Qmult_le_0_compat; [exact Hd0 | discriminate]|].
    split.
    { change 100%Q with (1 * 100)%Q at 2.
      apply Qmult_le_compat_r; [exact Hd1 | discriminate]. }
    split.
    + intros Hu.
      assert (Hne' : ~ (inject_Z m == 0)%Q).
      { intros H. rewrite H in Hm. discriminate. }
      assert (Ha : (inject_Z a == 0)%Q).
      { assert (Hq : (inject_Z a / inject_Z m == 0)%Q).
        { apply Qmult_integral in Hu as [Hu|Hu]; [exact Hu | discriminate]. }
        rewrite <- (Qmult_div_r (inject_Z a) (inject_Z m) Hne').
        rewrite Hq. ring. }
      unfold Qeq in Ha. simpl in Ha. unfold a, m in *. lia.
    + intros Heq. unfold a. rewrite Heq, Z.sub_diag.
      unfold Qdiv. ring.
Qed.

(** A bucket holding 3 of 4 tokens is a quarter used; [RateLimiter(0.5)]
    has capacity 0 and no statistics. *)
Lemma get_stats_utilization_witness :
  get_stats (init (1 # 2) None) = Raised ZeroDivisionError
  /\ (exists st, get_stats (mk 4 4 3 None) = Ok st
                 /\ (0 <= utilization_percent st)%Q
                 /\ (utilization_percent st <= 100)%Q).
Proof.
  split.
  - apply (get_stats_utilization (init (1 # 2) None)). reflexivity.
  - destruct (get_stats_utilization (mk 4 4 3 None)) as [_ H].
    destruct H as (st & Hst & Hlo & Hhi & _).
    + discriminate.
    + unfold bucket_inv. simpl. lia.
    + exists st. split; [exact Hst|]. split; [exact Hlo | exact Hhi].
Defined.

(** X5.  [reset] gives the whole burst back: whatever the state before,
    a [try_acquire] for any amount up to the capacity succeeds at any
    clock reading after a [reset], and [get_available_tokens] reports the
    capacity when it is not negative. *)
Theorem reset_restores_burst (n : Z) (t0 t1 : Q) (s : t) :
  n <= max_tokens s ->
  (try_acquire n t1 (reset t0 s)).1 = true
  /\ (0 <= max_tokens s -> (get_available_tokens t1 (reset t0 s)).1 = max_tokens s).
Proof.
  intros Hn. split.
  - unfold try_acquire.
    pose proof (refill_keeps_covered n t1 (reset t0 s) Hn Hn) as Hc.
    apply Z.leb_le in Hc. by rewrite Hc.
  - intros Hcap. unfold get_available_tokens. simpl.
    assert (Hm : max_tokens (reset t0 s) = max_tokens s) by reflexivity.
    assert (Hcur : current_tokens (reset t0 s) = max_tokens s) by reflexivity.
    pose proof (refill_keeps_covered (max_tokens s) t1 (reset t0 s)
                  ltac:(rewrite Hm; lia) ltac:(rewrite Hcur; lia)) as Hc.
    assert (Hinv : bucket_inv (reset t0 s)).
    { unfold bucket_inv. rewrite Hm, Hcur. lia. }
    pose proof (refill_preserves_inv t1 (reset t0 s) Hinv) as [_ Hle].
    destruct (refill_keeps_config t1 (reset t0 s)) as [_ Hms].
    rewrite Hms, Hm in Hle. lia.
Qed.

(** A drained bucket of capacity 5 serves a burst of 5 right after a reset. *)
Lemma reset_restores_burst_witness :
  (try_acquire 5 7 (reset 7 (mk 2 5 0 (Some 3%Q)))).1 = true
  /\ (get_available_tokens 7 (reset 7 (mk 2 5 0 (Some 3%Q)))).1 = 5.
Proof.
  destruct (reset_restores_burst 5 7 7 (mk 2 5 0 (Some 3%Q))) as [H1 H2].
  - simpl. lia.
  - split; [exact H1|]. apply H2. simpl. lia.
Defined.

End LimiterBounds.


(** * Further properties of the adaptive limiter *)

Section AdaptiveSteps.

Import AdaptiveRateLimiter.

Lemma py_min_le_r (a b : Q) : (py_min a b <= b)%Q.
Proof.
  unfold py_min. destruct (Qltb b a) eqn:E; [apply Qle_refl|].
  by apply Qltb_ge in E.
Qed.

Lemma py_max_ge_r (a b : Q) : (b <= py_max a b)%Q.
Proof.
  unfold py_max. destruct (Qltb a b) eqn:E; [apply Qle_refl|].
  by apply Qltb_ge in E.
Qed.

Lemma py_clamp_cases (lo hi x : Q) :
  py_max lo (py_min hi x) = x \/ py_max lo (py_min hi x) = lo
  \/ py_max lo (py_min hi x) = hi.
Proof.
  unfold py_max, py_min. destruct (Qltb x hi); destruct (Qltb lo _); auto.
Qed.

(** What [_adjust_rate] does to the rate and the capacity, in terms of
    the clamped proposal. *)
Lemma adjust_rate_rate (status : Z) (rtime : Q) (is_err : bool) (b : t) (new0 : Q) :
  proposed_rate b status rtime is_err = Some new0 ->
  let new := py_max (min_requests_per_second b)
                    (py_min (max_requests_per_second b) new0) in
  (rate (_adjust_rate status rtime is_err b) == new)%Q
  /\ (~ (new == rate b)%Q ->
      rate (_adjust_rate status rtime is_err b) = new
      /\ RateLimiter.max_tokens (base (_adjust_rate status rtime is_err b))
         = py_int new).
Proof.
  intros Hp new. unfold _adjust_rate. rewrite Hp. fold new.
  destruct (Qeq_bool new (rate b)) eqn:E; simpl.
  - apply Qeq_bool_iff in E. split; [symmetry; exact E | contradiction].
  - split; [apply Qeq_refl | done].
Qed.

Lemma record_response_rate (ts : Q) (status : Z) (rtime : Q) (is_err : bool)
    (a : t) (new0 : Q) :
  proposed_rate a status rtime is_err = Some new0 ->
  let new := py_max (min_requests_per_second a)
                    (py_min (max_requests_per_second a) new0) in
  (rate (record_response ts status rtime is_err a) == new)%Q
  /\ (~ (new == rate a)%Q ->
      rate (record_response ts status rtime is_err a) = new
      /\ RateLimiter.max_tokens (base (record_response ts status rtime is_err a))
         = py_int new).
Proof.
  intros Hp. unfold record_response.
  exact (adjust_rate_rate status rtime is_err
           (mk (base a) (min_requests_per_second a) (max_requests_per_second a)
               (adaptation_factor a) _) new0 Hp).
Qed.

(** X6.  Throttling responses only lower the rate.  For a limiter with
    ordered bounds, a rate within them, and a non-negative rate and
    adaptation factor, a 429, an error or a response slower than 5 s
    leaves a rate between the minimum and the old rate; after a 429 on a
    positive rate above the minimum, with a positive factor, the rate is
    strictly lower and the capacity is [int] of the new rate. *)
Theorem throttling_lowers_rate (ts : Q) (status : Z) (rtime : Q) (is_err : bool)
    (a : t) :
  (min_requests_per_second a <= max_requests_per_second a)%Q ->
  in_bounds a ->
  (0 <= rate a)%Q ->
  (0 <= adaptation_factor a)%Q ->
  status = 429 \/ is_err = true \/ (5 < rtime)%Q ->
  let a' := record_response ts status rtime is_err a in
  (min_requests_per_second a <= rate a')%Q
  /\ (rate a' <= rate a)%Q
  /\ (status = 429 -> (0 < adaptation_factor a)%Q -> (0 < rate a)%Q ->
      (min_requests_per_second a < rate a)%Q ->
      (rate a' < rate a)%Q
      /\ RateLimiter.max_tokens (base a') = py_int (rate a')).
Proof.
  intros Hmm [Hlo Hhi] Hr Hf Hcase a'.
  assert (Hprod : (0 <= rate a * adaptation_factor a)%Q)
    by (apply Qmult_le_0_compat; assumption).
  assert (Hp : exists new0, proposed_rate a status rtime is_err = Some new0
                            /\ (new0 <= rate a)%Q
                            /\ (status = 429 ->
                                (new0 == rate a * (1 - adaptation_factor a * 2))%Q)).
  { unfold proposed_rate. destruct (status =? 429) eqn:E429.
    - eexists. split; [reflexivity|]. split; [|intros _; apply Qeq_refl].
      set (p := (rate a * adaptation_factor a)%Q) in *.
      assert (Heq : (rate a * (1 - adaptation_factor a * 2) == rate a - p * 2)%Q)
        by (unfold p; ring).
      rewrite Heq. lra.
    - apply Z.eqb_neq in E429. destruct is_err.
      + eexists. split; [reflexivity|]. split; [|done].
        set (p := (rate a * adaptation_factor a)%Q) in *.
        assert (Heq : (rate a * (1 - adaptation_factor a) == rate a - p)%Q)
          by (unfold p; ring).
        rewrite Heq. lra.
      + destruct Hcase as [->|[?|Hslow]]; [done|done|].
        apply Qltb_lt in Hslow. rewrite Hslow.
        eexists. split; [reflexivity|]. split; [|done].
        set (p := (rate a * adaptation_factor a)%Q) in *.
        assert (Heq : (rate a * (1 - adaptation_factor a * (1 # 2))
                       == rate a - p * (1 # 2))%Q) by (unfold p; ring).
        rewrite Heq. lra. }
  destruct Hp as (new0 & Hp & Hle & H429).
  destruct (record_response_rate ts status rtime is_err a new0 Hp) as [Heq Hchg].
  fold a' in Heq, Hchg.
  set (new := py_max (min_requests_per_second a)
                     (py_min (max_requests_per_second a) new0)) in *.
  assert (Hnew_hi : (new <= rate a)%Q).
  { unfold new, py_max.
    destruct (Qltb _ _); [|exact Hlo].
    eapply Qle_trans; [apply py_min_le_r | exact Hle]. }
  split; [rewrite Heq; apply py_max_ge_l|].
  split; [rewrite Heq; exact Hnew_hi|].
  intros H429' Hfpos Hrpos Hmin.
  assert (Hstrict : (new < rate a)%Q).
  { assert (Hnew0 : (new0 < rate a)%Q).
    { rewrite (H429 H429').
      assert (Hpp : (0 < rate a * adaptation_factor a)%Q).
      { rewrite <- (Qmult_0_l (adaptation_factor a)).
        apply Qmult_lt_compat_r; assumption. }
      set (p := (rate a * adaptation_factor a)%Q) in *.
      assert (Heq' : (rate a * (1 - adaptation_factor a * 2) == rate a - p * 2)%Q)
        by (unfold p; ring).
      rewrite Heq'. lra. }
    unfold new, py_max.
    destruct (Qltb _ _); [|exact Hmin].
    eapply Qle_lt_trans; [apply py_min_le_r | exact Hnew0]. }
  destruct Hchg as [Hrate Hcap].
  { intros H. rewrite H in Hstrict. exact (Qlt_irrefl _ Hstrict). }
  split; [rewrite Hrate; exact Hstrict | by rewrite Hcap, Hrate].
Qed.

(** From 10 requests/s with factor 0.25, a 429 halves the rate. *)
Lemma throttling_lowers_rate_witness :
  let a := init 10 1 100 (1 # 4) in
  let a' := record_response 0 429 (1 # 8) false a in
  (rate a' < rate a)%Q /\ RateLimiter.max_tokens (base a') = py_int (rate a').
Proof.
  intros a a'.
  destruct (throttling_lowers_rate 0 429 (1 # 8) false a) as (_ & _ & H).
  - discriminate.
  - split; discriminate.
  - discriminate.
  - discriminate.
  - by left.
  - apply H; reflexivity.
Defined.

(** X7.  A fast success only raises the rate.  For a limiter with ordered
    bounds, a rate within them, and a non-negative rate and adaptation
    factor, a 200 answered in under a second (and not flagged as an
    error) leaves a rate between the old rate and the maximum, strictly
    higher when the old rate was positive and below the maximum and the
    factor is positive. *)
Theorem fast_success_raises_rate (ts rtime : Q) (a : t) :
  (min_requests_per_second a <= max_requests_per_second a)%Q ->
  in_bounds a ->
  (0 <= rate a)%Q ->
  (0 <= adaptation_factor a)%Q ->
  (rtime < 1)%Q ->
  let a' := record_response ts 200 rtime false a in
  (rate a <= rate a')%Q
  /\ (rate a' <= max_requests_per_second a)%Q
  /\ ((0 < adaptation_factor a)%Q -> (0 < rate a)%Q ->
      (rate a < max_requests_per_second a)%Q ->
      (rate a < rate a')%Q).
Proof.
  intros Hmm [Hlo Hhi] Hr Hf Hfast a'.
  assert (Hprod : (0 <= rate a * adaptation_factor a)%Q)
    by (apply Qmult_le_0_compat; assumption).
  assert (Hp : proposed_rate a 200 rtime false
               = Some (rate a * (1 + adaptation_factor a * (1 # 5)))%Q).
  { unfold proposed_rate. simpl.
    assert (Hslow : Qltb 5 rtime = false).
    { apply Qltb_ge. apply Qlt_le_weak. eapply Qlt_trans; [exact Hfast | reflexivity]. }
    rewrite Hslow. apply Qltb_lt in Hfast. by rewrite Hfast. }
  destruct (record_response_rate ts 200 rtime false a _ Hp) as [Heq Hchg].
  fold a' in Heq, Hchg.
  set (new0 := (rate a * (1 + adaptation_factor a * (1 # 5)))%Q) in *.
  set (new := py_max (min_requests_per_second a)
                     (py_min (max_requests_per_second a) new0)) in *.
  set (p := (rate a * adaptation_factor a)%Q) in *.
  assert (Hnew0 : (new0 == rate a + p * (1 # 5))%Q) by (unfold new0, p; ring).
  assert (Hmin_ge : forall x, (rate a <= x)%Q ->
                              (rate a <= py_min (max_requests_per_second a) x)%Q).
  { intros x Hx. unfold py_min. by destruct (Qltb _ _). }
  split.
  { rewrite Heq. eapply Qle_trans; [|apply py_max_ge_r].
    apply Hmin_ge. rewrite Hnew0. lra. }
  split.
  { rewrite Heq. apply (py_clamp_bounds _ _ new0 Hmm). }
  intros Hfpos Hrpos Hbelow.
  assert (Hpp : (0 < p)%Q).
  { unfold p. rewrite <- (Qmult_0_l (adaptation_factor a)).
    apply Qmult_lt_compat_r; assumption. }
  rewrite Heq. eapply Qlt_le_trans; [|apply py_max_ge_r].
  unfold py_min. destruct (Qltb new0 _); [|exact Hbelow].
  rewrite Hnew0. lra.
Qed.

(** From 10 requests/s with factor 0.25, a quick 200 raises the rate. *)
Lemma fast_success_raises_rate_witness :
  let a := init 10 1 100 (1 # 4) in
  (rate a < rate (record_response 0 200 (1 # 4) false a))%Q.
Proof.
  intros a.
  destruct (fast_success_raises_rate 0 (1 # 4) a) as (_ & _ & H).
  - discriminate.
  - split; discriminate.
  - discriminate.
  - discriminate.
  - reflexivity.
  - apply H; reflexivity.
Defined.

Lemma adjust_rate_history (status : Z) (rtime : Q) (is_err : bool) (b : t) :
  _recent_responses (_adjust_rate status rtime is_err b) = _recent_responses b.
Proof.
  unfold _adjust_rate. destruct (proposed_rate _ _ _ _); [|reflexivity].
  by destruct (negb _).
Qed.

(** The newest 100 entries of a list. *)
Lemma latest_snoc (h : list ResponseSample) (r : ResponseSample) :
  drop (length (h ++ [r]) - 100) (h ++ [r])
  = let appended := drop (length h - 100) h ++ [r] in
    if (100 <? length appended)%nat then tail appended else appended.
Proof.
  rewrite length_app. simpl.
  destruct (decide (length h < 100)%nat) as [Hlt|Hge].
  - replace (length h - 100)%nat with 0%nat by lia.
    replace (length h + 1 - 100)%nat with 0%nat by lia.
    rewrite !drop_0, length_app. simpl.
    destruct (100 <? length h + 1)%nat eqn:E; [apply Nat.ltb_lt in E; lia | done].
  - rewrite length_app, length_drop. simpl.
    destruct (100 <? length h - (length h - 100) + 1)%nat eqn:E;
      [|apply Nat.ltb_ge in E; lia].
    replace (length h + 1 - 100)%nat with (S (length h - 100)) by lia.
    assert (Hk : forall (l : list ResponseSample) k,
               (k < length l)%nat -> tail (drop k l) = drop (S k) l).
    { intros l. induction l as [|x l IH]; intros [|k'] Hk; simpl in *; try lia.
      - by rewrite drop_0.
      - apply IH. lia. }
    assert (Hkl : (length h - 100 < length h)%nat) by lia.
    rewrite drop_app_le by lia.
    rewrite <- (Hk h _ Hkl).
    destruct (drop (length h - 100) h) as [|x l] eqn:Ed; [|done].
    apply (f_equal length) in Ed. rewrite length_drop in Ed. simpl in Ed. lia.
Qed.

(** X8.  The response history is a sliding window: after any run of
    [record_response] calls on a limiter whose history holds at most 100
    samples, the history is the newest 100 of the old samples followed by
    the reported ones, in the order they were reported. *)
Theorem response_history_window (calls : list ResponseSample) (a : t) :
  (length (_recent_responses a) <= 100)%nat ->
  _recent_responses (record_all calls a)
  = drop (length (_recent_responses a ++ calls) - 100) (_recent_responses a ++ calls)
  /\ (length (_recent_responses (record_all calls a)) <= 100)%nat.
Proof.
  intros Hlen.
  assert (Heq : _recent_responses (record_all calls a)
                = drop (length (_recent_responses a ++ calls) - 100)
                       (_recent_responses a ++ calls)).
  { revert a Hlen. unfold record_all.
    induction calls as [|r calls IH] using rev_ind; intros a Hlen.
    - simpl. rewrite app_nil_r.
      replace (length (_recent_responses a) - 100)%nat with 0%nat by lia.
      by rewrite drop_0.
    - rewrite foldl_app. simpl.
      unfold record_response at 1. rewrite adjust_rate_history. simpl.
      rewrite (IH a Hlen). clear IH.
      rewrite app_assoc.
      rewrite (latest_snoc (_recent_responses a ++ calls) r). simpl.
      by destruct r. }
  split; [exact Heq|].
  rewrite Heq, length_drop. lia.
Qed.

(** One hundred and two reports on a fresh limiter: the first two are gone. *)
Lemma response_history_window_witness :
  let calls := (fun k => mkSample (inject_Z (Z.of_nat k)) 200 2 false) <$> seq 0 102 in
  _recent_responses (record_all calls (init 10 1 100 (1 # 4))) = drop 2 calls.
Proof.
  intros calls.
  destruct (response_history_window calls (init 10 1 100 (1 # 4))) as [H _].
  - simpl. lia.
  - rewrite H. reflexivity.
Defined.

End AdaptiveSteps.


(** * Further properties of the cache *)

Section CacheMore.

Import CacheManager.

Variable re_compile : string -> option (string -> bool).

Lemma cleanup_expired_filter (now : Q) (c : cache) :
  _cleanup_expired now c
  = filter (fun kv : string * CacheEntry => ~ Is_true (Qle_bool (expires_at kv.2) now)) c.
Proof.
  apply map_eq. intros k. rewrite lookup_cleanup_expired, map_lookup_filter.
  destruct (c !! k) as [e|]; simpl; [|reflexivity].
  case_guard as Hg; simpl in Hg; destruct (Qle_bool (expires_at e) now);
    simpl in *; try reflexivity; tauto.
Qed.

Lemma filter_map_to_list_length (P : string * CacheEntry -> Prop)
    `{!forall x, Decision (P x)} (c : cache) :
  length (filter P (map_to_list c)) = size (filter P c).
Proof.
  rewrite <- length_map_to_list.
  apply Permutation_length, NoDup_Permutation.
  - apply NoDup_filter, NoDup_map_to_list.
  - apply NoDup_map_to_list.
  - intros [k e]. rewrite list_elem_of_filter, !elem_of_map_to_list.
    rewrite map_lookup_filter_Some. tauto.
Qed.

Lemma size_filter_split (P : string * CacheEntry -> Prop)
    `{!forall x, Decision (P x)} (c : cache) :
  size c = (size (filter P c) + size (filter (fun kv => ~ P kv) c))%nat.
Proof.
  rewrite <- (map_filter_union_complement P c) at 1.
  apply map_size_disj_union, map_disjoint_filter_complement.
Qed.

(** X9.  The sweep is invisible to readers: [get], [exists] and [touch]
    at a time not before the sweep answer the same whether or not
    [_cleanup_expired] ran, and the sweep keeps every entry that is still
    live at sweep time. *)
Theorem sweep_is_transparent (key : string) (ttl : Z) (sweep_time now : Q) (c : cache) :
  (sweep_time <= now)%Q ->
  (get key now (_cleanup_expired sweep_time c)).1 = (get key now c).1
  /\ (exists_ key now (_cleanup_expired sweep_time c)).1 = (exists_ key now c).1
  /\ (touch key ttl now (_cleanup_expired sweep_time c)).1 = (touch key ttl now c).1
  /\ (forall entry, c !! key = Some entry ->
                    (sweep_time < expires_at entry)%Q ->
                    _cleanup_expired sweep_time c !! key = Some entry).
Proof.
  intros Hle.
  assert (Hget : (get key now (_cleanup_expired sweep_time c)).1 = (get key now c).1).
  { unfold get. rewrite lookup_cleanup_expired.
    destruct (c !! key) as [e|]; [|reflexivity].
    destruct (Qle_bool (expires_at e) sweep_time) eqn:Es;
      [|by destruct (Qle_bool (expires_at e) now)].
    apply Qle_bool_iff in Es.
    assert (Hn : Qle_bool (expires_at e) now = true).
    { apply Qle_bool_iff. eapply Qle_trans; eauto. }
    by rewrite Hn. }
  split; [exact Hget|]. split; [|split].
  - unfold exists_.
    destruct (get key now (_cleanup_expired sweep_time c)) as [v1 c1].
    destruct (get key now c) as [v2 c2]. simpl in *. by rewrite Hget.
  - unfold touch. rewrite lookup_cleanup_expired.
    destruct (c !! key) as [e|]; [|reflexivity].
    destruct (Qle_bool (expires_at e) sweep_time) eqn:Es;
      [|by destruct (Qle_bool (expires_at e) now)].
    apply Qle_bool_iff in Es.
    assert (Hn : Qle_bool (expires_at e) now = true).
    { apply Qle_bool_iff. eapply Qle_trans; eauto. }
    by rewrite Hn.
  - intros e He Hlive. rewrite lookup_cleanup_expired, He.
    apply Qle_bool_false in Hlive. by rewrite Hlive.
Qed.

(** An entry that expired at 10 reads as absent at 30 with or without the
    sweep of time 20; an entry good until 50 survives that sweep. *)
Lemma sweep_is_transparent_witness :
  let c : cache := {[ "a" := mkEntry (VInt 1) 10; "b" := mkEntry (VInt 2) 50 ]} in
  (get "a" 30 (_cleanup_expired 20 c)).1 = (get "a" 30 c).1
  /\ _cleanup_expired 20 c !! "b" = Some (mkEntry (VInt 2) 50).
Proof.
  intros c.
  destruct (sweep_is_transparent "a" 60 20 30 c) as (Ha & _); [discriminate|].
  destruct (sweep_is_transparent "b" 60 20 30 c) as (_ & _ & _ & Hb); [discriminate|].
  split; [exact Ha|]. apply Hb; reflexivity.
Defined.

(** X10.  [touch] on a live entry returns [True] and replaces only the
    expiry: the value is read back until [now + ttl] and is absent from
    then on.  On a missing or expired key it returns [False], changes
    nothing, and the key still reads as absent at any later time. *)
Theorem touch_extends_live_entries (key : string) (ttl : Z) (t0 t1 : Q) (c : cache) :
  match c !! key with
  | Some entry =>
      if Qle_bool (expires_at entry) t0
      then touch key ttl t0 c = (false, c)
           /\ ((t0 <= t1)%Q -> (get key t1 c).1 = VNone)
      else (touch key ttl t0 c).1 = true
           /\ ((t1 < t0 + inject_Z ttl)%Q ->
               (get key t1 (touch key ttl t0 c).2).1 = value entry)
           /\ ((t0 + inject_Z ttl <= t1)%Q ->
               (get key t1 (touch key ttl t0 c).2).1 = VNone)
  | None => touch key ttl t0 c = (false, c) /\ (get key t1 c).1 = VNone
  end.
Proof.
  unfold touch, get. destruct (c !! key) as [e|] eqn:Hk; [|done].
  destruct (Qle_bool (expires_at e) t0) eqn:E.
  - split; [reflexivity|]. intros Hle.
    apply Qle_bool_iff in E.
    assert (Hn : Qle_bool (expires_at e) t1 = true).
    { apply Qle_bool_iff. eapply Qle_trans; eauto. }
    by rewrite Hn.
  - split; [reflexivity|]. simpl. rewrite lookup_insert_eq. simpl. split.
    + intros Hlt. apply Qle_bool_false in Hlt. by rewrite Hlt.
    + intros Hge. apply Qle_bool_iff in Hge. by rewrite Hge.
Qed.

(** A value good until 100 is touched at 90 for 60 more seconds; a value
    that expired at 10 cannot be touched back to life at 20. *)
Lemma touch_extends_live_entries_witness :
  let c : cache := {[ "a" := mkEntry (VInt 1) 100; "b" := mkEntry (VInt 2) 10 ]} in
  (get "a" 120 (touch "a" 60 90 c).2).1 = VInt 1
  /\ (get "a" 150 (touch "a" 60 90 c).2).1 = VNone
  /\ touch "b" 60 20 c = (false, c)
  /\ (get "b" 25 c).1 = VNone.
Proof.
  intros c.
  pose proof (touch_extends_live_entries "a" 60 90 120 c) as H1.
  pose proof (touch_extends_live_entries "a" 60 90 150 c) as H2.
  pose proof (touch_extends_live_entries "b" 60 20 25 c) as H3.
  change (c !! "a") with (Some (mkEntry (VInt 1) 100)) in H1, H2.
  change (c !! "b") with (Some (mkEntry (VInt 2) 10)) in H3.
  simpl in H1, H2, H3.
  destruct H1 as (_ & H1 & _). destruct H2 as (_ & _ & H2). destruct H3 as [H3 H4].
  split; [apply H1; reflexivity|].
  split; [apply H2; discriminate|].
  split; [exact H3 | apply H4; discriminate].
Defined.

(** X11.  Calls on one key leave every other key alone: after a [get],
    [set], [delete], [exists] or [touch] on [k], the entry stored under
    any other key is what it was. *)
Theorem single_key_calls_are_local (o : op) (k k' : string) (c : cache) :
  op_key o = Some k -> k <> k' ->
  apply_op re_compile o c !! k' = c !! k'.
Proof.
  intros Hk Hne.
  destruct o as [k0 now|k0 v ttl now|k0|p|k0 now|k0 ttl now|p|now];
    simpl in Hk; try discriminate; injection Hk as ->; simpl.
  - unfold get. destruct (c !! k) as [e|]; [|done].
    destruct (Qle_bool _ _); simpl; [by apply lookup_delete_ne | done].
  - unfold set. by apply lookup_insert_ne.
  - unfold delete_. destruct (c !! k) as [e|]; simpl; [by apply lookup_delete_ne | done].
  - unfold exists_, get. destruct (c !! k) as [e|]; [|done].
    destruct (Qle_bool _ _); simpl; [by apply lookup_delete_ne | done].
  - unfold touch. destruct (c !! k) as [e|]; [|done].
    destruct (Qle_bool _ _); simpl; [done | by apply lookup_insert_ne].
Qed.

Lemma keys_length (c : cache) : length (keys c) = size c.
Proof. unfold keys. by rewrite length_fmap, length_map_to_list. Qed.

Lemma filter_none (P : string -> Prop) `{!forall x, Decision (P x)} (l : list string) :
  (forall x, x ∈ l -> ~ P x) -> filter P l = [].
Proof.
  intros Hall. destruct (filter P l) as [|x l'] eqn:E; [reflexivity|].
  assert (Hx : x ∈ filter P l) by (rewrite E; left).
  apply list_elem_of_filter in Hx as [HP Hin]. by destruct (Hall x Hin).
Qed.

(** X12.  [get_keys] and [clear] agree on what a pattern selects.  When
    [get_keys(pattern)] returns a list, [clear(pattern)] returns its
    length and removes exactly the listed keys, so that afterwards
    [get_keys(pattern)] is empty; without a pattern that is every key.
    When [get_keys(pattern)] raises, [clear(pattern)] raises too and
    removes nothing. *)
Theorem clear_removes_listed_keys (pattern : option string) (c : cache) :
  match get_keys re_compile pattern c with
  | Ok ks =>
      (clear re_compile pattern c).1 = Ok (length ks)
      /\ get_keys re_compile pattern (clear re_compile pattern c).2 = Ok []
      /\ (forall k, (clear re_compile pattern c).2 !! k
                    = if decide (k ∈ ks) then None else c !! k)
  | Raised e => clear re_compile pattern c = (Raised e, c)
  | Diverged => False
  end.
Proof.
  unfold get_keys, clear. destruct pattern as [p|].
  - destruct (re_compile p) as [m|] eqn:Ep; [|reflexivity]. simpl.
    split; [reflexivity|]. split.
    + f_equal. apply filter_none. intros k Hin Hm.
      apply elem_of_keys in Hin as [e He].
      rewrite lookup_del_all in He.
      destruct (decide _) as [|Hnin]; [discriminate|].
      apply Hnin. apply list_elem_of_filter. split; [exact Hm|].
      apply elem_of_keys. eauto.
    + intros k. apply lookup_del_all.
  - simpl. split; [by rewrite keys_length|]. split.
    + unfold keys. by rewrite map_to_list_empty.
    + intros k. rewrite lookup_empty.
      destruct (decide (k ∈ keys c)) as [|Hnin]; [reflexivity|].
      destruct (c !! k) as [e|] eqn:He; [|reflexivity].
      exfalso. apply Hnin. apply elem_of_keys. eauto.
Qed.

(** X13.  The statistics count what the sweep would do: taken at the same
    time, [active_entries] is the number of entries a sweep leaves,
    [expired_entries] the number it removes, and they add up to
    [total_entries]; right after a sweep nothing is reported expired. *)
Theorem stats_count_the_sweep (json_size : pyval -> option Z) (interval : Z)
    (now : Q) (c : cache) :
  let st := get_stats json_size interval now c in
  total_entries st = Z.of_nat (size c)
  /\ active_entries st = Z.of_nat (size (_cleanup_expired now c))
  /\ expired_entries st = Z.of_nat (size c) - Z.of_nat (size (_cleanup_expired now c))
  /\ 0 <= active_entries st <= total_entries st
  /\ expired_entries (get_stats json_size interval now (_cleanup_expired now c)) = 0.
Proof.
  set (P := fun kv : string * CacheEntry => Is_true (Qle_bool (expires_at kv.2) now)).
  assert (Hexp : forall c0 : cache,
             expired_entries (get_stats json_size interval now c0)
             = Z.of_nat (size (filter P c0))).
  { intros c0. unfold get_stats. simpl. f_equal.
    apply (filter_map_to_list_length P). }
  assert (Hsplit : forall c0 : cache,
             size c0 = (size (filter P c0) + size (_cleanup_expired now c0))%nat).
  { intros c0. rewrite cleanup_expired_filter. apply (size_filter_split P). }
  intros st. pose proof (Hexp c) as He. pose proof (Hsplit c) as Hs. fold st in He.
  assert (Hact : active_entries st = total_entries st - expired_entries st)
    by reflexivity.
  assert (Htot : total_entries st = Z.of_nat (size c)) by reflexivity.
  split; [exact Htot|].
  split; [lia|]. split; [lia|]. split; [lia|].
  rewrite Hexp. rewrite cleanup_expired_filter.
  replace (filter P (filter (fun kv => ~ P kv) c)) with (∅ : cache); [done|].
  symmetry. apply map_eq. intros k. rewrite lookup_empty.
  apply map_lookup_filter_None. right. intros e [He' Hn]%map_lookup_filter_Some HP.
  contradiction.
Qed.

End CacheMore.

(** A cache of two entries after a [get] on one of them: the other is
    untouched. *)
Lemma single_key_calls_are_local_witness :
  let c : gmap string CacheManager.CacheEntry :=
    {[ "a" := CacheManager.mkEntry (VInt 1) 10; "b" := CacheManager.mkEntry (VInt 2) 50 ]} in
  CacheManager.apply_op Re.compile (CacheManager.OpGet "a" 20) c !! "b" = c !! "b".
Proof.
  intros c. apply (single_key_calls_are_local Re.compile _ "a" "b"); [reflexivity | discriminate].
Defined.

(** Three keys, the pattern "a:.*", and a pattern that does not compile. *)
Lemma clear_removes_listed_keys_witness :
  let c := CacheManager.set "a:1" (VInt 1) 300 0
             (CacheManager.set "a:2" (VInt 2) 300 0
                (CacheManager.set "b:1" (VInt 3) 300 0 ∅)) in
  (CacheManager.clear Re.compile (Some "a:.*") c).1 = Ok 2%nat
  /\ CacheManager.get_keys Re.compile (Some "a:.*")
       (CacheManager.clear Re.compile (Some "a:.*") c).2 = Ok []
  /\ CacheManager.clear Re.compile (Some "a:(") c = (Raised ReError, c).
Proof.
  intros c.
  pose proof (clear_removes_listed_keys Re.compile (Some "a:.*") c) as H1.
  pose proof (clear_removes_listed_keys Re.compile (Some "a:(") c) as H2.
  assert (E1 : exists ks, CacheManager.get_keys Re.compile (Some "a:.*") c = Ok ks
                          /\ length ks = 2%nat) by (vm_compute; eauto).
  assert (E2 : CacheManager.get_keys Re.compile (Some "a:(") c = Raised ReError)
    by reflexivity.
  destruct E1 as (ks & E1 & Hlen).
  rewrite E1 in H1. rewrite E2 in H2.
  destruct H1 as (Hn & Hk & _).
  split; [by rewrite Hn, Hlen|]. split; [exact Hk | exact H2].
Defined.

(** * Further properties of the request path *)

Section RequestPath.

Import OpenTextService.

Variable api_base_url : string.
Variable http : string -> string -> list (string * string) -> http_result.
Variable acquire_fuel : nat.

Lemma world_eta (w : World) :
  mkWorld (cache_manager w) (rate_limiter w) (clock w) (http_log w) = w.
Proof. by destruct w. Qed.

Lemma cacheable_get (key : string) :
  key <> "" -> cacheable "GET" (Some key) = Some key.
Proof.
  intros Hkey. unfold cacheable. apply String.eqb_neq in Hkey. by rewrite Hkey.
Qed.

(** X14.  A cache hit costs nothing: a GET whose cache key holds a live,
    truthy value returns that value and leaves the whole world as it was
    (no token is taken and no upstream call is made). *)
Theorem cache_hit_is_free (endpoint key : string) (cache_ttl : Z)
    (entry : CacheManager.CacheEntry) (w : World) :
  key <> "" ->
  cache_manager w !! key = Some entry ->
  (clock w < CacheManager.expires_at entry)%Q ->
  truthy (CacheManager.value entry) = true ->
  _make_request api_base_url http acquire_fuel "GET" endpoint (Some key) cache_ttl w
  = (Ok (CacheManager.value entry), w).
Proof.
  intros Hkey Hk Hlive Htruthy.
  unfold _make_request. rewrite (cacheable_get key Hkey).
  unfold bind, cache_get.
  rewrite (get_live key entry (clock w) (cache_manager w) Hk Hlive).
  rewrite Htruthy. unfold ret. by rewrite world_eta.
Qed.

(** What the upstream path does once the limiter admits the request at
    once. *)
Lemma request_upstream_admitted (method endpoint : string) (cache_key : option string)
    (cache_ttl : Z) (w : World) :
  acquire_fuel <> 0%nat ->
  1 <= RateLimiter.current_tokens (rate_limiter w) ->
  let url := api_base_url +:+ endpoint in
  let limiter' := RateLimiter.consume 1 (rate_limiter w) in
  let log' := http_log w ++ [(method, url)] in
  request_upstream api_base_url http acquire_fuel method endpoint cache_key cache_ttl w
  = match http method url (http_log w) with
    | HttpResponse status body =>
        if 400 <=? status
        then (Raised OpenTextAPIError, mkWorld (cache_manager w) limiter' (clock w) log')
        else match cacheable method cache_key with
             | Some k =>
                 (Ok body,
                  mkWorld (CacheManager.set k body cache_ttl (clock w) (cache_manager w))
                          limiter' (clock w) log')
             | None => (Ok body, mkWorld (cache_manager w) limiter' (clock w) log')
             end
    | _ => (Raised OpenTextAPIError, mkWorld (cache_manager w) limiter' (clock w) log')
    end.
Proof.
  intros Hfuel Htok url limiter' log'.
  unfold request_upstream, bind, limiter_acquire.
  destruct acquire_fuel as [|fuel]; [done|]. simpl RateLimiter.acquire.
  destruct (RateLimiter.current_tokens (rate_limiter w) <? 1) eqn:E;
    [apply Z.ltb_lt in E; lia|].
  unfold wrap_api, session_request. simpl. fold url.
  destruct (http method url (http_log w)) as [status body| |]; simpl; try done.
  destruct (400 <=? status); simpl; [done|].
  by destruct (cacheable method cache_key).
Qed.

(** X15.  A failed upstream call is paid for and leaves no trace in the
    cache: when the limiter admits the request and the upstream answers
    with a status of 400 or more, or the transport fails, [_make_request]
    (not being served from the cache) raises [OpenTextAPIError]; the token
    is spent, the call is logged, and the cache is only changed by the
    removal of an expired entry under the cache key. *)
Theorem failed_request_caches_nothing (method endpoint : string)
    (cache_key : option string) (cache_ttl : Z) (w : World) :
  acquire_fuel <> 0%nat ->
  1 <= RateLimiter.current_tokens (rate_limiter w) ->
  match http method (api_base_url +:+ endpoint) (http_log w) with
  | HttpResponse status _ => 400 <= status
  | _ => True
  end ->
  match cacheable method cache_key with
  | Some k => truthy (CacheManager.get k (clock w) (cache_manager w)).1 = false
  | None => True
  end ->
  _make_request api_base_url http acquire_fuel method endpoint cache_key cache_ttl w
  = (Raised OpenTextAPIError,
     mkWorld (match cacheable method cache_key with
              | Some k => (CacheManager.get k (clock w) (cache_manager w)).2
              | None => cache_manager w
              end)
             (RateLimiter.consume 1 (rate_limiter w)) (clock w)
             (http_log w ++ [(method, api_base_url +:+ endpoint)])).
Proof.
  intros Hfuel Htok Hfail Hmiss. unfold _make_request.
  destruct (cacheable method cache_key) as [k|] eqn:Ec.
  - unfold bind, cache_get.
    destruct (CacheManager.get k (clock w) (cache_manager w)) as [v c1] eqn:Eg.
    simpl in Hmiss. rewrite Hmiss.
    rewrite (request_upstream_admitted method endpoint cache_key cache_ttl
               (mkWorld c1 (rate_limiter w) (clock w) (http_log w)) Hfuel Htok).
    simpl. destruct (http method (api_base_url +:+ endpoint) (http_log w))
      as [status body| |]; try done.
    apply Z.leb_le in Hfail. by rewrite Hfail.
  - rewrite (request_upstream_admitted method endpoint cache_key cache_ttl _ Hfuel Htok).
    destruct (http method (api_base_url +:+ endpoint) (http_log w))
      as [status body| |]; rewrite ?world_eta; try done.
    apply Z.leb_le in Hfail. by rewrite Hfail.
Qed.

Lemma limiter_acquire_cache (w : World) :
  cache_manager (limiter_acquire acquire_fuel w).2 = cache_manager w.
Proof.
  unfold limiter_acquire.
  by destruct (RateLimiter.acquire acquire_fuel 1 (clock w) (rate_limiter w))
    as [[s clk]| |].
Qed.

(** X16.  Only cacheable GETs touch the cache: a request with another
    method, or without a cache key, or with an empty one, leaves the cache
    as it was whatever the limiter and the upstream do. *)
Theorem uncacheable_requests_leave_cache (method endpoint : string)
    (cache_key : option string) (cache_ttl : Z) (w : World) :
  cacheable method cache_key = None ->
  cache_manager
    (_make_request api_base_url http acquire_fuel method endpoint cache_key cache_ttl w).2
  = cache_manager w.
Proof.
  intros Hc. unfold _make_request. rewrite Hc.
  unfold request_upstream, bind. rewrite Hc.
  pose proof (limiter_acquire_cache w) as Hl.
  destruct (limiter_acquire acquire_fuel w) as [[[]| |] w1]; simpl in *; try exact Hl.
  unfold wrap_api, session_request. simpl.
  destruct (http method _ (http_log w1)) as [status body| |]; simpl; try exact Hl.
  destruct (400 <=? status); simpl; exact Hl.
Qed.

(** X17.  Read-through caching: when a GET with a cache key and a positive
    TTL returns a truthy value, the same request made again right away
    returns the same value from the cache, with no upstream call and no
    token taken. *)
Theorem repeated_get_is_served_from_cache (endpoint key : string) (cache_ttl : Z)
    (v : pyval) (w w1 : World) :
  key <> "" -> 0 < cache_ttl -> truthy v = true ->
  _make_request api_base_url http acquire_fuel "GET" endpoint (Some key) cache_ttl w
  = (Ok v, w1) ->
  _make_request api_base_url http acquire_fuel "GET" endpoint (Some key) cache_ttl w1
  = (Ok v, w1).
Proof.
  intros Hkey Httl Htruthy Hfirst.
  assert (Hentry : exists entry,
             cache_manager w1 !! key = Some entry
             /\ (clock w1 < CacheManager.expires_at entry)%Q
             /\ CacheManager.value entry = v).
  { unfold _make_request in Hfirst. rewrite (cacheable_get key Hkey) in Hfirst.
    unfold bind at 1, cache_get in Hfirst.
    unfold CacheManager.get in Hfirst.
    assert (Hup : forall w0,
               request_upstream api_base_url http acquire_fuel "GET" endpoint
                 (Some key) cache_ttl w0 = (Ok v, w1) ->
               exists entry, cache_manager w1 !! key = Some entry
                             /\ (clock w1 < CacheManager.expires_at entry)%Q
                             /\ CacheManager.value entry = v).
    { intros w0 Hreq. unfold request_upstream in Hreq.
      rewrite (cacheable_get key Hkey) in Hreq.
      unfold bind, limiter_acquire in Hreq.
      destruct (RateLimiter.acquire acquire_fuel 1 (clock w0) (rate_limiter w0))
        as [[s clk]| |]; try discriminate.
      unfold wrap_api, session_request in Hreq. simpl in Hreq.
      destruct (http "GET" _ (http_log w0)) as [status body| |];
        simpl in Hreq; try discriminate.
      destruct (400 <=? status); simpl in Hreq; [discriminate|].
      injection Hreq as <- <-. simpl.
      exists (CacheManager.mkEntry body (clk + inject_Z cache_ttl)).
      unfold CacheManager.set. rewrite lookup_insert_eq.
      split; [reflexivity|]. split; [|reflexivity]. simpl.
      rewrite <- (Qplus_0_r clk) at 1. apply Qplus_lt_r.
      change 0%Q with (inject_Z 0). by rewrite <- Zlt_Qlt. }
    destruct (cache_manager w !! key) as [e|] eqn:Hk.
    - destruct (Qle_bool (CacheManager.expires_at e) (clock w)) eqn:Ex.
      + simpl in Hfirst. eapply Hup. exact Hfirst.
      + destruct (truthy (CacheManager.value e)) eqn:Et.
        * unfold ret in Hfirst. injection Hfirst as <- <-. simpl.
          exists e. split; [exact Hk|]. split; [|reflexivity].
          by apply Qle_bool_false.
        * eapply Hup. exact Hfirst.
    - simpl in Hfirst. eapply Hup. exact Hfirst. }
  destruct Hentry as (entry & Hk & Hlive & <-).
  by apply cache_hit_is_free.
Qed.

End RequestPath.

Section RecordFetches.

Import OpenTextService.

Variable api_base_url : string.
Variable http : string -> string -> list (string * string) -> http_result.
Variable acquire_fuel : nat.
Variable A : Type.
Variable from_dict : pyval -> outcome A.

(** X18.  [get_account], [get_fax_usage] and [get_porting_status] never
    let an [OpenTextAPIError] out: whenever the request raises one, they
    return [None], keeping the effects of the request. *)
Theorem get_record_absorbs_api_errors (endpoint cache_key : string) (cache_ttl : Z)
    (w : World) :
  (get_record api_base_url http acquire_fuel A from_dict endpoint cache_key cache_ttl w).1
  <> Raised OpenTextAPIError
  /\ (forall w1,
        _make_request api_base_url http acquire_fuel "GET" endpoint (Some cache_key)
          cache_ttl w = (Raised OpenTextAPIError, w1) ->
        get_record api_base_url http acquire_fuel A from_dict endpoint cache_key
          cache_ttl w = (Ok None, w1)).
Proof.
  unfold get_record, except_api, bind, lift, ret. split.
  - destruct (_make_request _ _ _ _ _ _ _ w) as [[v| e |] w1]; simpl.
    + destruct (from_dict v) as [a| e |]; simpl; [done| |done].
      by destruct e.
    + by destruct e.
    + done.
  - intros w1 Hreq. by rewrite Hreq.
Qed.

(** X19.  A malformed document poisons the cache.  When a cacheable GET
    misses the cache, is admitted, and the upstream answers below 400 with
    a truthy document on which [from_dict] raises, the fetch raises that
    exception and the document is cached all the same: the same fetch made
    again raises again, from the cache, without an upstream call. *)
Theorem malformed_document_is_cached (endpoint cache_key : string) (cache_ttl : Z)
    (status : Z) (body : pyval) (e : exn) (w : World) :
  cache_key <> "" -> 0 < cache_ttl ->
  acquire_fuel <> 0%nat ->
  1 <= RateLimiter.current_tokens (rate_limiter w) ->
  truthy (CacheManager.get cache_key (clock w) (cache_manager w)).1 = false ->
  http "GET" (api_base_url +:+ endpoint) (http_log w) = HttpResponse status body ->
  status < 400 -> truthy body = true ->
  from_dict body = Raised e -> e <> OpenTextAPIError ->
  exists w1,
    get_record api_base_url http acquire_fuel A from_dict endpoint cache_key cache_ttl w
    = (Raised e, w1)
    /\ http_log w1 = http_log w ++ [("GET", api_base_url +:+ endpoint)]
    /\ get_record api_base_url http acquire_fuel A from_dict endpoint cache_key
         cache_ttl w1 = (Raised e, w1).
Proof.
  intros Hkey Httl Hfuel Htok Hmiss Hhttp Hstatus Htruthy Hdict He.
  assert (Hfirst : exists w1,
             _make_request api_base_url http acquire_fuel "GET" endpoint
               (Some cache_key) cache_ttl w = (Ok body, w1)
             /\ http_log w1 = http_log w ++ [("GET", api_base_url +:+ endpoint)]).
  { unfold _make_request. rewrite (cacheable_get cache_key Hkey).
    unfold bind, cache_get.
    destruct (CacheManager.get cache_key (clock w) (cache_manager w)) as [v c1] eqn:Eg.
    simpl in Hmiss. rewrite Hmiss.
    rewrite (request_upstream_admitted api_base_url http acquire_fuel "GET" endpoint
               (Some cache_key) cache_ttl
               (mkWorld c1 (rate_limiter w) (clock w) (http_log w)) Hfuel Htok).
    cbn [http_log clock cache_manager rate_limiter]. rewrite Hhttp.
    destruct (400 <=? status) eqn:E; [apply Z.leb_le in E; lia|].
    rewrite (cacheable_get cache_key Hkey). eauto. }
  destruct Hfirst as (w1 & Hfirst & Hlog).
  pose proof (repeated_get_is_served_from_cache api_base_url http acquire_fuel
                endpoint cache_key cache_ttl body w w1 Hkey Httl Htruthy Hfirst)
    as Hsecond.
  exists w1. unfold get_record, except_api, bind, lift.
  rewrite Hfirst, Hsecond, Hdict. by destruct e.
Qed.

Variable fetch_one : string -> M (option A).

(** X20.  Degenerate batch sizes.  With a batch size of 0 a batch call
    raises [ValueError] before fetching anything, also for an empty input;
    with a negative batch size it returns an empty list and fetches
    nothing, whatever the input; with any other batch size an empty input
    gives an empty list. *)
Theorem fetch_batch_degenerate_sizes (batch_size : Z) (ids : list string) (w : World) :
  (batch_size = 0 -> fetch_batch batch_size A fetch_one ids w = (Raised ValueError, w))
  /\ (batch_size < 0 -> fetch_batch batch_size A fetch_one ids w = (Ok [], w))
  /\ (batch_size <> 0 -> fetch_batch batch_size A fetch_one [] w = (Ok [], w)).
Proof.
  unfold fetch_batch, bind, lift, py_range. split; [|split].
  - intros ->. reflexivity.
  - intros Hneg. destruct (batch_size =? 0) eqn:E0; [apply Z.eqb_eq in E0; lia|].
    apply Z.ltb_lt in Hneg. by rewrite Hneg.
  - intros Hne. destruct (batch_size =? 0) eqn:E0; [apply Z.eqb_eq in E0; lia|].
    destruct (batch_size <? 0) eqn:E1; [done|]. apply Z.ltb_ge in E1.
    change (length (@nil string)) with 0%nat. rewrite Nat.add_0_l.
    rewrite Nat.div_small by lia. reflexivity.
Qed.

End RecordFetches.

(** * Updates and the health check *)

Section UpdatesAndHealth.

Import OpenTextService ServiceCalls.

Variable api_base_url : string.
Variable http : string -> string -> list (string * string) -> http_result.
Variable acquire_fuel : nat.

Lemma put_outcome (endpoint : string) (w : World) :
  cache_manager (_make_request api_base_url http acquire_fuel "PUT" endpoint None 300 w).2
  = cache_manager w.
Proof. by apply uncacheable_requests_leave_cache. Qed.

Lemma put_admitted (endpoint : string) (w : World) :
  acquire_fuel <> 0%nat ->
  1 <= RateLimiter.current_tokens (rate_limiter w) ->
  (_make_request api_base_url http acquire_fuel "PUT" endpoint None 300 w).1
  = match http "PUT" (api_base_url +:+ endpoint) (http_log w) with
    | HttpResponse status body =>
        if 400 <=? status then Raised OpenTextAPIError else Ok body
    | _ => Raised OpenTextAPIError
    end.
Proof.
  intros Hfuel Htok. unfold _make_request. simpl.
  rewrite (request_upstream_admitted api_base_url http acquire_fuel "PUT" endpoint
             None 300 w Hfuel Htok).
  destruct (http "PUT" _ (http_log w)) as [status body| |]; try done.
  destruct (400 <=? status); done.
Qed.

Section Account.

Variable R : Type.
Variable record_id : R -> string.
Variable set_last_updated : Q -> R -> R.

(** X21.  [update_account] invalidates on success only.  The account's
    [last_updated] is stamped before the request in every case.  When
    the call returns [True] the cache holds no entry for the account and
    every other entry is as before; when it returns [False], or lets an
    exception through (never an [OpenTextAPIError]), the cache is
    untouched, so a stale entry stays.  Once admitted by the limiter, it
    returns [True] exactly when the upstream answers below 400. *)
Theorem update_account_invalidates_cache (account : R) (w : World) :
  let r := update_account api_base_url http acquire_fuel R record_id set_last_updated
             account w in
  let account' := set_last_updated (clock w) account in
  let key := "account:" +:+ record_id account' in
  match r.1 with
  | Ok (true, a) =>
      a = account'
      /\ cache_manager r.2 !! key = None
      /\ (forall k, k <> key -> cache_manager r.2 !! k = cache_manager w !! k)
  | Ok (false, a) => a = account' /\ cache_manager r.2 = cache_manager w
  | Raised e => e <> OpenTextAPIError /\ cache_manager r.2 = cache_manager w
  | Diverged => True
  end
  /\ (acquire_fuel <> 0%nat ->
      1 <= RateLimiter.current_tokens (rate_limiter w) ->
      r.1 = Ok (match http "PUT" (api_base_url +:+ ("/accounts/" +:+ record_id account'))
                        (http_log w) with
                | HttpResponse status _ => negb (400 <=? status)
                | _ => false
                end, account')).
Proof.
  intros r account' key. unfold r, update_account. fold account'.
  unfold except_api, bind.
  pose proof (put_outcome ("/accounts/" +:+ record_id account') w) as Hcache.
  split.
  - destruct (_make_request api_base_url http acquire_fuel "PUT" _ None 300 w)
      as [[v|e|] w1]; simpl in *; [| |done].
    + unfold cache_delete, CacheManager.delete_, ret.
      fold key. rewrite Hcache.
      destruct (cache_manager w !! key) as [entry|] eqn:Hk; simpl.
      * split; [done|]. split; [apply lookup_delete_eq|].
        intros k Hne. by apply lookup_delete_ne.
      * split; [done|]. split; [exact Hk | done].
    + destruct e; simpl; try (split; [discriminate | exact Hcache]).
      unfold ret. simpl. split; [done | exact Hcache].
  - intros Hfuel Htok.
    pose proof (put_admitted ("/accounts/" +:+ record_id account') w Hfuel Htok) as Hput.
    destruct (_make_request api_base_url http acquire_fuel "PUT" _ None 300 w)
      as [[v|e|] w1]; simpl in *.
    + unfold cache_delete, ret.
      destruct (CacheManager.delete_ _ (cache_manager w1)); simpl.
      destruct (http "PUT" _ (http_log w)) as [status body| |]; try discriminate.
      by destruct (400 <=? status).
    + destruct (http "PUT" _ (http_log w)) as [status body| |].
      * destruct (400 <=? status); [|discriminate]. by injection Hput as ->.
      * by injection Hput as ->.
      * by injection Hput as ->.
    + destruct (http "PUT" _ (http_log w)) as [status body| |]; try discriminate.
      by destruct (400 <=? status).
Qed.

End Account.

(** X22.  [health_check] never raises and is never served from the cache:
    every exception of the request becomes an "unhealthy" answer, the
    cache is left as it was, and once admitted by the limiter the check
    makes exactly one upstream call and reports "healthy" exactly when the
    upstream answers below 400 with a JSON object. *)
Theorem health_check_never_raises (w : World) :
  let r := health_check api_base_url http acquire_fuel w in
  (forall e, r.1 <> Raised e)
  /\ cache_manager r.2 = cache_manager w
  /\ (acquire_fuel <> 0%nat ->
      1 <= RateLimiter.current_tokens (rate_limiter w) ->
      http_log r.2 = http_log w ++ [("GET", api_base_url +:+ "/health")]
      /\ exists h, r.1 = Ok h
           /\ healthy h
              = match http "GET" (api_base_url +:+ "/health") (http_log w) with
                | HttpResponse status (VDict _) => negb (400 <=? status)
                | _ => false
                end
           /\ (healthy h = true <-> is_Some (api_status h))
           /\ (healthy h = false <-> is_Some (error h))).
Proof.
  intros r. unfold r, health_check.
  pose proof (uncacheable_requests_leave_cache api_base_url http acquire_fuel
                "GET" "/health" None 300 w eq_refl) as Hcache.
  split; [|split].
  - intros e.
    destruct (_make_request api_base_url http acquire_fuel "GET" "/health" None 300 w)
      as [[v|e'|] w1]; simpl; [by destruct v|done|done].
  - destruct (_make_request api_base_url http acquire_fuel "GET" "/health" None 300 w)
      as [[v|e'|] w1]; simpl in *; [by destruct v|done|done].
  - intros Hfuel Htok.
    change (_make_request api_base_url http acquire_fuel "GET" "/health" None 300 w)
      with (request_upstream api_base_url http acquire_fuel "GET" "/health" None 300 w).
    rewrite (request_upstream_admitted api_base_url http acquire_fuel "GET" "/health"
               None 300 w Hfuel Htok).
    destruct (http "GET" _ (http_log w)) as [status body| |]; simpl.
    + destruct (400 <=? status); simpl.
      * split; [done|]. eexists. split; [reflexivity|]. simpl.
        split; [by destruct body|].
        split; split; try done; intros [? ?]; done.
      * destruct body; simpl; (split; [done|]); eexists; (split; [reflexivity|]);
          simpl; (split; [done|]); split; split; try done; try (intros [? ?]; done);
          eauto.
    + split; [done|]. eexists. split; [reflexivity|]. simpl.
      split; [done|]. split; split; try done; try (intros [? ?]; done); eauto.
    + split; [done|]. eexists. split; [reflexivity|]. simpl.
      split; [done|]. split; split; try done; try (intros [? ?]; done); eauto.
Qed.

End UpdatesAndHealth.


(** * Usage aggregation *)

Section AggregationFacts.

Import OpenTextService ServiceCalls.

Lemma Qplus_assoc_L (x y z : Q) : (x + (y + z))%Q = (x + y + z)%Q.
Proof.
  destruct x as [a b], y as [c d], z as [e f]. unfold Qplus. simpl. f_equal.
  - rewrite !Pos2Z.inj_mul. ring.
  - apply Pos.mul_assoc.
Qed.

Lemma Qplus_0_l_L (x : Q) : (0 + x)%Q = x.
Proof.
  destruct x as [a b]. unfold Qplus. simpl. f_equal. apply Z.mul_1_r.
Qed.

Lemma Qplus_0_r_L (x : Q) : (x + 0)%Q = x.
Proof.
  destruct x as [a b]. unfold Qplus. simpl. f_equal.
  - rewrite Z.mul_1_r. apply Z.add_0_r.
  - apply Pos.mul_1_r.
Qed.

Lemma py_sum_from {X} (f : X -> Q) (a : Q) (l : list X) :
  foldl (fun acc x => (acc + f x)%Q) a l = (a + py_sum f l)%Q.
Proof.
  unfold py_sum. revert a. induction l as [|x l IH]; intros a; simpl.
  - by rewrite Qplus_0_r_L.
  - rewrite (IH (a + f x)%Q), (IH (0 + f x)%Q), Qplus_0_l_L.
    by rewrite Qplus_assoc_L.
Qed.

Lemma py_sum_cons {X} (f : X -> Q) (x : X) (l : list X) :
  py_sum f (x :: l) = (f x + py_sum f l)%Q.
Proof.
  unfold py_sum at 1. simpl. by rewrite py_sum_from, Qplus_0_l_L.
Qed.

Variable U : Type.
Variable usage_account_id : U -> string.
Variable quantity : U -> Q.
Variable cost : U -> Q.
Variable get_usage_data : string -> M (list U).

Lemma build_breakdown_lookup (ids : list string) (all : list U) (k : string) :
  build_breakdown U usage_account_id quantity cost ids all !! k
  = if decide (k ∈ ids)
    then Some (account_totals U usage_account_id quantity cost k all)
    else None.
Proof.
  unfold build_breakdown.
  assert (Hgen : forall m0 : gmap string usage_totals,
             foldl (fun breakdown account_id =>
                      <[account_id := account_totals U usage_account_id quantity cost
                                        account_id all]> breakdown) m0 ids !! k
             = if decide (k ∈ ids)
               then Some (account_totals U usage_account_id quantity cost k all)
               else m0 !! k).
  { induction ids as [|a ids IH]; intros m0; simpl.
    - destruct (decide (k ∈ [])) as [Hin|]; [by apply not_elem_of_nil in Hin | done].
    - rewrite IH.
      destruct (decide (k ∈ ids)) as [Hin|Hnin];
        destruct (decide (k ∈ a :: ids)) as [Hin'|Hnin']; try done.
      + exfalso. apply Hnin'. by right.
      + apply elem_of_cons in Hin' as [->|?]; [|done]. apply lookup_insert_eq.
      + apply lookup_insert_ne. intros ->. apply Hnin'. by left. }
  rewrite Hgen. by rewrite lookup_empty.
Qed.

Lemma account_usage_cons (k : string) (u : U) (all : list U) :
  account_usage U usage_account_id k (u :: all)
  = if decide (usage_account_id u = k)
    then u :: account_usage U usage_account_id k all
    else account_usage U usage_account_id k all.
Proof.
  unfold account_usage.
  exact (filter_cons (fun usage => usage_account_id usage = k) u all).
Qed.

(** Splitting a sum by account. *)
Lemma py_sum_by_account (f : U -> Q) (ids : list string) (all : list U) :
  NoDup ids ->
  Forall (fun u => usage_account_id u ∈ ids) all ->
  py_sum (fun k => py_sum f (account_usage U usage_account_id k all)) ids
  = py_sum f all.
Proof.
  intros Hnd Hall. induction Hall as [|u all Hu _ IH].
  - clear Hnd. induction ids as [|k ids IHk]; [done|].
    rewrite py_sum_cons, IHk. apply Qplus_0_l_L.
  - rewrite py_sum_cons, <- IH. clear IH.
    induction Hnd as [|k ids Hk Hnd IHk]; [by apply not_elem_of_nil in Hu|].
    rewrite !py_sum_cons. rewrite account_usage_cons.
    destruct (decide (usage_account_id u = k)) as [Heq|Hne].
    + rewrite py_sum_cons, <- !Qplus_assoc_L. f_equal. f_equal.
      assert (Hrest : forall ks, k ∉ ks ->
                 py_sum (fun k0 => py_sum f (account_usage U usage_account_id k0
                                               (u :: all))) ks
                 = py_sum (fun k0 => py_sum f (account_usage U usage_account_id k0
                                                 all)) ks).
      { induction ks as [|k0 ks IHks]; intros Hnin; [done|].
        rewrite !py_sum_cons, account_usage_cons.
        rewrite decide_False.
        - rewrite IHks; [done|]. intros ?. apply Hnin. by right.
        - intros Hk0. apply Hnin. apply elem_of_cons. left. congruence. }
      by apply Hrest.
    + apply elem_of_cons in Hu as [?|Hu]; [done|].
      rewrite (IHk Hu).
      rewrite !Qplus_assoc_L. f_equal.
      set (x := py_sum f (account_usage U usage_account_id k all)).
      destruct x as [a b], (f u) as [c d]. unfold Qplus. simpl. f_equal; [ring|].
      apply Pos.mul_comm.
Qed.

Lemma count_by_account (ids : list string) (all : list U) :
  NoDup ids ->
  Forall (fun u => usage_account_id u ∈ ids) all ->
  sum_list_with (fun k => length (account_usage U usage_account_id k all)) ids
  = length all.
Proof.
  intros Hnd Hall. induction Hall as [|u all Hu _ IH].
  - induction ids as [|k ids IHk]; [done|].
    simpl. apply IHk. by apply NoDup_cons in Hnd as [_ ?].
  - simpl. rewrite <- IH. clear IH.
    induction Hnd as [|k ids Hk Hnd IHk]; [by apply not_elem_of_nil in Hu|].
    simpl. rewrite account_usage_cons.
    destruct (decide (usage_account_id u = k)) as [Heq|Hne].
    + simpl. do 2 f_equal.
      assert (Hrest : forall ks, k ∉ ks ->
                 sum_list_with (fun k0 => length (account_usage U usage_account_id k0
                                                    (u :: all))) ks
                 = sum_list_with (fun k0 => length (account_usage U usage_account_id k0
                                                      all)) ks).
      { induction ks as [|k0 ks IHks]; intros Hnin; [done|].
        simpl. rewrite account_usage_cons, decide_False.
        - rewrite IHks; [done|]. intros ?. apply Hnin. by right.
        - intros Hk0. apply Hnin. apply elem_of_cons. left. congruence. }
      by apply Hrest.
    + apply elem_of_cons in Hu as [?|Hu]; [done|].
      rewrite (IHk Hu). lia.
Qed.

Lemma collect_usage_owned (ids : list string) (acc all : list U) (w w' : World) :
  (forall id w0 r w1, get_usage_data id w0 = (Ok r, w1) ->
                      Forall (fun u => usage_account_id u = id) r) ->
  collect_usage U get_usage_data ids acc w = (Ok all, w') ->
  exists new, all = acc ++ new /\ Forall (fun u => usage_account_id u ∈ ids) new.
Proof.
  intros Hown. revert acc w. induction ids as [|id ids IH]; intros acc w Hc; simpl in Hc.
  - injection Hc as <- <-. exists []. by rewrite app_nil_r.
  - unfold bind in Hc.
    destruct (get_usage_data id w) as [[r|e|] w1] eqn:Eg; try discriminate.
    destruct (IH _ _ Hc) as (new & -> & Hnew).
    exists (r ++ new). split; [by rewrite app_assoc|].
    apply Forall_app. split.
    + eapply Forall_impl; [exact (Hown _ _ _ _ Eg)|]. intros u <-. by left.
    + eapply Forall_impl; [exact Hnew|]. intros u ?. by right.
Qed.

(** X23.  The breakdown of [aggregate_usage] adds up to its totals.  When
    the account ids are distinct and each fetch returns only records of
    the account it was asked for, then for the collected usage records the
    aggregation has one breakdown entry per requested account, built from
    that account's records, and the quantities, the costs and the counts
    of the breakdown sum to the total quantity, the total cost and the
    number of records. *)
Theorem aggregate_breakdown_adds_up (ids : list string) (all : list U) (w w' : World) :
  NoDup ids ->
  (forall id w0 r w1, get_usage_data id w0 = (Ok r, w1) ->
                      Forall (fun u => usage_account_id u = id) r) ->
  collect_usage U get_usage_data ids [] w = (Ok all, w') ->
  exists agg,
    aggregate_usage U usage_account_id quantity cost get_usage_data ids w = (Ok agg, w')
    /\ total_quantity agg = py_sum quantity all
    /\ total_cost agg = py_sum cost all
    /\ (forall k, breakdown agg !! k
                  = if decide (k ∈ ids)
                    then Some (account_totals U usage_account_id quantity cost k all)
                    else None)
    /\ py_sum (fun k => from_option totals_quantity 0%Q (breakdown agg !! k)) ids
       = total_quantity agg
    /\ py_sum (fun k => from_option totals_cost 0%Q (breakdown agg !! k)) ids
       = total_cost agg
    /\ sum_list_with (fun k => from_option totals_count 0%nat (breakdown agg !! k)) ids
       = length all.
Proof.
  intros Hnd Hown Hc.
  destruct (collect_usage_owned ids [] all w w' Hown Hc) as (new & Heq & Hcov).
  simpl in Heq. subst new.
  eexists. split; [unfold aggregate_usage, bind; rewrite Hc; reflexivity|]. simpl.
  split; [done|]. split; [done|]. split; [apply build_breakdown_lookup|].
  assert (Hq : forall (g : usage_totals -> Q) (f : U -> Q),
             (forall k, g (account_totals U usage_account_id quantity cost k all)
                        = py_sum f (account_usage U usage_account_id k all)) ->
             py_sum (fun k => from_option g 0%Q
                      (build_breakdown U usage_account_id quantity cost ids all !! k)) ids
             = py_sum f all).
  { intros g f Hg. rewrite <- (py_sum_by_account f ids all Hnd Hcov).
    assert (Hext : forall ks, (forall k, k ∈ ks -> k ∈ ids) ->
               py_sum (fun k => from_option g 0%Q
                        (build_breakdown U usage_account_id quantity cost ids all !! k)) ks
               = py_sum (fun k => py_sum f (account_usage U usage_account_id k all)) ks).
    { induction ks as [|k ks IHks]; intros Hsub; [done|].
      rewrite !py_sum_cons, IHks by (intros; apply Hsub; by right).
      rewrite build_breakdown_lookup, decide_True by (apply Hsub; by left).
      simpl. by rewrite Hg. }
    by apply Hext. }
  split; [by apply Hq|]. split; [by apply Hq|].
  rewrite <- (count_by_account ids all Hnd Hcov).
  assert (Hext : forall ks, (forall k, k ∈ ks -> k ∈ ids) ->
             sum_list_with (fun k => from_option totals_count 0%nat
                      (build_breakdown U usage_account_id quantity cost ids all !! k)) ks
             = sum_list_with (fun k => length (account_usage U usage_account_id k all)) ks).
  { induction ks as [|k ks IHks]; intros Hsub; [done|].
    simpl. rewrite IHks by (intros; apply Hsub; by right).
    by rewrite build_breakdown_lookup, decide_True by (apply Hsub; by left). }
  by apply Hext.
Qed.

End AggregationFacts.

(** * The child list of an account *)

Section ChildList.

Import ChildAccounts.

Lemma remove_first_absent (x : string) (l : list string) :
  x ∉ l -> remove_first x l = l.
Proof.
  induction l as [|y l IH]; intros Hx; simpl; [done|].
  destruct (decide (y = x)) as [->|Hne]; [exfalso; apply Hx; by left|].
  rewrite IH; [done|]. intros ?. apply Hx. by right.
Qed.

Lemma remove_first_snoc (x : string) (l : list string) :
  x ∉ l -> remove_first x (l ++ [x]) = l.
Proof.
  induction l as [|y l IH]; intros Hx; simpl.
  - by rewrite decide_True.
  - destruct (decide (y = x)) as [->|Hne]; [exfalso; apply Hx; by left|].
    rewrite IH; [done|]. intros ?. apply Hx. by right.
Qed.

Lemma remove_first_subset (x y : string) (l : list string) :
  y ∈ remove_first x l -> y ∈ l.
Proof.
  induction l as [|z l IH]; simpl; [done|].
  destruct (decide (z = x)); [by right|].
  intros [->|?]%elem_of_cons; [by left | right; by apply IH].
Qed.

Lemma remove_first_NoDup (x : string) (l : list string) :
  NoDup l -> NoDup (remove_first x l) /\ x ∉ remove_first x l.
Proof.
  induction 1 as [|y l Hy Hnd [IH1 IH2]]; simpl.
  - split; [constructor | by apply not_elem_of_nil].
  - destruct (decide (y = x)) as [->|Hne]; [done|].
    split.
    + constructor; [|exact IH1]. intros ?. apply Hy. by eapply remove_first_subset.
    + intros [?|?]%elem_of_cons; [congruence | done].
Qed.

Lemma remove_first_length (x : string) (l : list string) :
  x ∈ l -> S (length (remove_first x l)) = length l.
Proof.
  induction l as [|y l IH]; simpl; [by intros ?%not_elem_of_nil|].
  destruct (decide (y = x)) as [->|Hne]; [done|].
  intros [?|Hin]%elem_of_cons; [congruence|]. simpl. by rewrite IH.
Qed.

(** X24.  The child list of an account.  On a list without duplicates,
    [add_child_account] keeps it without duplicates and leaves the child
    in it, adding twice is adding once, [remove_child_account] leaves the
    child out, and removing a child that was just added (and was not there
    before) gives the list back.  A removal takes out exactly one
    occurrence, and [last_updated] changes only when the list does. *)
Theorem child_list_operations (child : string) (now1 now2 : Q) (a : t) :
  NoDup a.1 ->
  NoDup (add_child_account child now1 a).1
  /\ child ∈ (add_child_account child now1 a).1
  /\ add_child_account child now2 (add_child_account child now1 a)
     = add_child_account child now1 a
  /\ NoDup (remove_child_account child now2 a).1
  /\ (child ∉ (remove_child_account child now2 a).1)
  /\ (child ∉ a.1 ->
      (remove_child_account child now2 (add_child_account child now1 a)).1 = a.1)
  /\ (child ∈ a.1 ->
      S (length (remove_child_account child now2 a).1) = length a.1
      /\ add_child_account child now1 a = a)
  /\ (child ∉ a.1 -> remove_child_account child now2 a = a).
Proof.
  intros Hnd. destruct a as [l t0]. simpl in *.
  unfold add_child_account, remove_child_account. simpl.
  destruct (decide (child ∈ l)) as [Hin|Hnin]; simpl.
  - rewrite decide_True by done.
    destruct (remove_first_NoDup child l Hnd) as [H1 H2].
    repeat split; try done.
    by apply remove_first_length.
  - assert (Hin' : child ∈ l ++ [child]) by (apply elem_of_app; right; by left).
    rewrite !decide_True by done. simpl.
    repeat split; try done.
    + apply NoDup_app. split; [done|]. split; [|apply NoDup_singleton].
      intros x Hx [->|?%not_elem_of_nil]%elem_of_cons; done.
    + intros _. by apply remove_first_snoc.
Qed.

(** A parent of "c1" and "c2" gains and loses "c3". *)
Lemma child_list_operations_witness :
  let a : t := (["c1"; "c2"], 5%Q) in
  add_child_account "c3" 7 a = (["c1"; "c2"; "c3"], 7%Q)
  /\ (remove_child_account "c3" 9 (add_child_account "c3" 7 a)).1 = a.1
  /\ "c1" ∉ (remove_child_account "c1" 9 a).1.
Proof.
  intros a.
  assert (Hnd : NoDup a.1) by compute_done.
  destruct (child_list_operations "c3" 7 9 a Hnd) as (_ & _ & _ & _ & _ & Hback & _).
  destruct (child_list_operations "c1" 7 9 a Hnd) as (_ & _ & _ & _ & Hout & _).
  split; [reflexivity|]. split; [|exact Hout].
  apply Hback. compute_done.
Defined.

End ChildList.

(** * Runs of the scripted upstreams *)

(** A cached document for "a1" is returned as it is. *)
Lemma cache_hit_is_free_witness :
  let w := OpenTextService.mkWorld
             {[ "account:a1" := CacheManager.mkEntry (VStr "cached") 600 ]}
             (RateLimiter.init 10 None) 0 [] in
  OpenTextService._make_request Scenario.api_base_url Scenario.http 3
    "GET" "/accounts/a1" (Some "account:a1") 600 w
  = (Ok (VStr "cached"), w).
Proof.
  intros w.
  apply (cache_hit_is_free Scenario.api_base_url Scenario.http 3 "/accounts/a1"
           "account:a1" 600 (CacheManager.mkEntry (VStr "cached") 600) w).
  - discriminate.
  - reflexivity.
  - reflexivity.
  - reflexivity.
Defined.

(** The 404 for "a4" costs a token and a call and caches nothing. *)
Lemma failed_request_caches_nothing_witness :
  OpenTextService._make_request Scenario.api_base_url Scenario.http 3
    "GET" "/accounts/a4" (Some "account:a4") 600 Scenario.world0
  = (Raised OpenTextAPIError,
     OpenTextService.mkWorld ∅ (RateLimiter.mk 10 10 9 None) 0
       [("GET", "https://api/accounts/a4")]).
Proof.
  rewrite (failed_request_caches_nothing Scenario.api_base_url Scenario.http 3
             "GET" "/accounts/a4" (Some "account:a4") 600 Scenario.world0).
  - reflexivity.
  - discriminate.
  - vm_compute. discriminate.
  - vm_compute. discriminate.
  - reflexivity.
Defined.

(** A PUT leaves a cached document where it is. *)
Lemma uncacheable_requests_leave_cache_witness :
  let w := OpenTextService.mkWorld
             {[ "account:a1" := CacheManager.mkEntry (VStr "cached") 600 ]}
             (RateLimiter.init 10 None) 0 [] in
  OpenTextService.cache_manager
    (OpenTextService._make_request Scenario.api_base_url Scenario.http 3
       "PUT" "/accounts/a1" (Some "account:a1") 600 w).2
  = OpenTextService.cache_manager w.
Proof.
  intros w.
  apply (uncacheable_requests_leave_cache Scenario.api_base_url Scenario.http 3
           "PUT" "/accounts/a1" (Some "account:a1") 600 w).
  reflexivity.
Defined.

(** The document of "a1" is fetched once and then served from the cache. *)
Lemma repeated_get_is_served_from_cache_witness :
  exists v w1,
    OpenTextService._make_request Scenario.api_base_url Scenario.http 3
      "GET" "/accounts/a1" (Some "account:a1") 600 Scenario.world0 = (Ok v, w1)
    /\ OpenTextService.http_log w1 = [("GET", "https://api/accounts/a1")]
    /\ OpenTextService._make_request Scenario.api_base_url Scenario.http 3
         "GET" "/accounts/a1" (Some "account:a1") 600 w1 = (Ok v, w1).
Proof.
  assert (Hfirst : exists v w1,
             OpenTextService._make_request Scenario.api_base_url Scenario.http 3
               "GET" "/accounts/a1" (Some "account:a1") 600 Scenario.world0 = (Ok v, w1)
             /\ OpenTextService.http_log w1 = [("GET", "https://api/accounts/a1")]
             /\ truthy v = true).
  { vm_compute. eauto. }
  destruct Hfirst as (v & w1 & Hfirst & Hlog & Htruthy).
  exists v, w1. split; [exact Hfirst|]. split; [exact Hlog|].
  apply (repeated_get_is_served_from_cache Scenario.api_base_url Scenario.http 3
           "/accounts/a1" "account:a1" 600 v Scenario.world0 w1).
  - discriminate.
  - lia.
  - exact Htruthy.
  - exact Hfirst.
Defined.

(** The 404 for "a4" comes out of [get_account] as [None]. *)
Lemma get_record_absorbs_api_errors_witness :
  (Scenario.get_account "a4" Scenario.world0).1 = Ok None.
Proof.
  assert (Hreq : exists w1,
             OpenTextService._make_request Scenario.api_base_url Scenario.http 3
               "GET" "/accounts/a4" (Some "account:a4") 600 Scenario.world0
             = (Raised OpenTextAPIError, w1)).
  { vm_compute. eauto. }
  destruct Hreq as (w1 & Hreq).
  destruct (get_record_absorbs_api_errors Scenario.api_base_url Scenario.http 3
              OpenTextAccount.t OpenTextAccount.from_dict
              "/accounts/a4" "account:a4" 600 Scenario.world0) as [_ H].
  unfold Scenario.get_account, OpenTextService.get_account.
  change ("/accounts/" ++ "a4")%string with "/accounts/a4".
  change ("account:" ++ "a4")%string with "account:a4".
  by rewrite (H w1 Hreq).
Defined.

(** A document without "account_name" raises [KeyError] twice for one
    upstream call. *)
Lemma malformed_document_is_cached_witness :
  exists w1,
    Malformed.get_account "a1" Scenario.world0 = (Raised KeyError, w1)
    /\ OpenTextService.http_log w1 = [("GET", "https://api/accounts/a1")]
    /\ Malformed.get_account "a1" w1 = (Raised KeyError, w1).
Proof.
  apply (malformed_document_is_cached Scenario.api_base_url Malformed.http 3
           OpenTextAccount.t OpenTextAccount.from_dict
           "/accounts/a1" "account:a1" 600 200
           (VDict [("account_id", VStr "https://api/accounts/a1")]) KeyError
           Scenario.world0).
  - discriminate.
  - lia.
  - discriminate.
  - vm_compute. discriminate.
  - reflexivity.
  - reflexivity.
  - lia.
  - reflexivity.
  - reflexivity.
  - discriminate.
Defined.

(** A batch size of 0, a negative one, and an empty input. *)
Lemma fetch_batch_degenerate_sizes_witness :
  Scenario.get_accounts_batch 0 Scenario.account_ids Scenario.world0
  = (Raised ValueError, Scenario.world0)
  /\ Scenario.get_accounts_batch (-5) Scenario.account_ids Scenario.world0
     = (Ok [], Scenario.world0)
  /\ Scenario.get_accounts_batch 3 [] Scenario.world0 = (Ok [], Scenario.world0).
Proof.
  pose proof (fetch_batch_degenerate_sizes OpenTextAccount.t Scenario.get_account)
    as H.
  destruct (H 0 Scenario.account_ids Scenario.world0) as (H0 & _ & _).
  destruct (H (-5) Scenario.account_ids Scenario.world0) as (_ & Hneg & _).
  destruct (H 3 [] Scenario.world0) as (_ & _ & Hnil).
  split; [apply H0; reflexivity|].
  split; [apply Hneg; lia | apply Hnil; lia].
Defined.

(** An update of "a1" drops its cached document; an update of "a4",
    answered 404, returns [False] and leaves the cache alone. *)
Lemma update_account_invalidates_cache_witness :
  let w := OpenTextService.mkWorld
             {[ "account:a1" := CacheManager.mkEntry (VStr "cached") 600 ]}
             (RateLimiter.init 10 None) 0 [] in
  let update := ServiceCalls.update_account Scenario.api_base_url Scenario.http 3
                  string (fun id => id) (fun _ id => id) in
  (update "a1" w).1 = Ok (true, "a1")
  /\ OpenTextService.cache_manager (update "a1" w).2 !! "account:a1" = None
  /\ (update "a4" w).1 = Ok (false, "a4").
Proof.
  intros w update.
  destruct (update_account_invalidates_cache Scenario.api_base_url Scenario.http 3
              string (fun id => id) (fun _ id => id) "a1" w) as [Hmatch Hflag].
  destruct (update_account_invalidates_cache Scenario.api_base_url Scenario.http 3
              string (fun id => id) (fun _ id => id) "a4" w) as [_ Hflag4].
  fold update in Hmatch, Hflag, Hflag4.
  assert (H1 : (update "a1" w).1 = Ok (true, "a1")).
  { rewrite Hflag; [reflexivity | discriminate | vm_compute; discriminate]. }
  split; [exact H1|]. rewrite H1 in Hmatch. destruct Hmatch as (_ & Hgone & _).
  split; [exact Hgone|].
  rewrite Hflag4; [reflexivity | discriminate | vm_compute; discriminate].
Defined.

(** The scripted upstream answers the health check with a document. *)
Lemma health_check_never_raises_witness :
  let r := ServiceCalls.health_check Scenario.api_base_url Scenario.http 3
             Scenario.world0 in
  OpenTextService.http_log r.2 = [("GET", "https://api/health")]
  /\ exists h, r.1 = Ok h /\ ServiceCalls.healthy h = true.
Proof.
  intros r.
  destruct (health_check_never_raises Scenario.api_base_url Scenario.http 3
              Scenario.world0) as (_ & _ & H).
  destruct H as (Hlog & h & Hh & Hhealthy & _); [discriminate | vm_compute; discriminate |].
  fold r in Hlog, Hh. split; [exact Hlog|].
  exists h. split; [exact Hh|]. rewrite Hhealthy. reflexivity.
Defined.

(** Two accounts with two usage records each. *)
Lemma aggregate_breakdown_adds_up_witness :
  exists agg w',
    UsageScenario.aggregate_usage ["a1"; "a2"] Scenario.world0 = (Ok agg, w')
    /\ ServiceCalls.py_sum
         (fun k => from_option ServiceCalls.totals_quantity 0%Q
                     (ServiceCalls.breakdown agg !! k)) ["a1"; "a2"]
       = ServiceCalls.total_quantity agg
    /\ sum_list_with
         (fun k => from_option ServiceCalls.totals_count 0%nat
                     (ServiceCalls.breakdown agg !! k)) ["a1"; "a2"]
       = 4%nat.
Proof.
  assert (Hc : exists all w',
             ServiceCalls.collect_usage UsageScenario.usage UsageScenario.get_usage_data
               ["a1"; "a2"] [] Scenario.world0 = (Ok all, w')
             /\ length all = 4%nat).
  { eexists _, _. split; reflexivity. }
  destruct Hc as (all & w' & Hc & Hlen).
  destruct (aggregate_breakdown_adds_up UsageScenario.usage (fun u => u.1.1)
              (fun u => u.1.2) (fun u => u.2) UsageScenario.get_usage_data
              ["a1"; "a2"] all Scenario.world0 w')
    as (agg & Hagg & _ & _ & _ & Hq & _ & Hn).
  - compute_done.
  - intros id w0 r w1 [= <- <-]. repeat constructor.
  - exact Hc.
  - exists agg, w'. split; [exact Hagg|]. split; [exact Hq|]. by rewrite Hn.
Defined.
